(** * stackie::sstring<N>: a fixed-capacity, stack allocated string

    A shallow embedding of [stackie/sstring.hpp].  The C++ code works on raw
    [char] pointers ([std::copy_n], [std::strlen], [dst[min_len] = 0]), so the
    embedding keeps a flat byte-addressed memory and models every function of
    the header as a program over that memory.  Each load and store is also
    appended to an access log, which is what the bounds statements are about.

    Capacities ([N], [M]) and lengths are [size_t] in the source.  Every
    value of that type computed by the header is an index into an existing
    array, so no arithmetic wraps and [nat] is used throughout. *)

From Stdlib Require Import Strings.Byte.
From stdpp Require Import base option list.

Local Open Scope byte_scope.

(** ** Memory, sinks and the access log *)

(** Addresses are indices into the memory. *)
Abbreviation addr := nat (only parsing).

(** The terminator: ['\0']. *)
Definition NUL : byte := x00.

Inductive access : Type :=
| Rd (a : addr)
| Wr (a : addr).

(** [cells] is the byte memory; [sinks] holds, per output stream, the bytes
    written to it so far; [log] is the sequence of memory accesses made. *)
Record machine : Type := Machine {
  cells : list byte;
  sinks : list (list byte);
  log : list access
}.

(** A program either faults (an access outside the memory: [None]) or returns
    a value and a new machine state. *)
Definition prog (A : Type) : Type := machine -> option (A * machine).

Definition ret {A : Type} (x : A) : prog A := fun h => Some (x, h).

Definition bind {A B : Type} (m : prog A) (k : A -> prog B) : prog B :=
  fun h => match m h with
           | Some (x, h') => k x h'
           | None => None
           end.

Definition fault {A : Type} : prog A := fun _ => None.

Notation "'let*' x ':=' m 'in' k" := (bind m (fun x => k))
  (at level 10, x name, m at level 100, k at level 200).
Notation "m1 '>>' m2" := (bind m1 (fun _ => m2))
  (at level 90, right associativity).

(** [*a] as an rvalue. *)
Definition load (a : addr) : prog byte := fun h =>
  match cells h !! a with
  | Some c => Some (c, Machine (cells h) (sinks h) (log h ++ [Rd a]))
  | None => None
  end.

(** [*a = c]. *)
Definition store (a : addr) (c : byte) : prog unit := fun h =>
  if decide (a < length (cells h))
  then Some (tt, Machine (<[a:=c]> (cells h)) (sinks h) (log h ++ [Wr a]))
  else None.

(** ** The parts of the standard library the header calls *)

(** [std::copy_n(first, count, result)]: for each [i < count] in increasing
    order, [*(result + i) = *(first + i)]. *)
Fixpoint copy_n (first : addr) (count : nat) (result : addr) : prog unit :=
  match count with
  | 0 => ret tt
  | S k =>
      let* c := load first in
      store result c >>
      copy_n (S first) k (S result)
  end.

(** [std::strlen(str)]: scans upwards from [str] for the first terminator.
    The scan faults when it leaves the memory, so a fuel of one more than the
    size of the memory is never used up (see [strlen_first_nul]). *)
Fixpoint strlen_scan (fuel : nat) (str : addr) (n : nat) : prog nat :=
  match fuel with
  | 0 => fault
  | S f =>
      let* c := load (str + n) in
      if Byte.eqb c NUL then ret n else strlen_scan f str (S n)
  end.

Definition strlen (str : addr) : prog nat := fun h =>
  strlen_scan (S (length (cells h))) str 0 h.

(** Reading [n] consecutive chars, as the stream inserter does. *)
Fixpoint load_n (p : addr) (n : nat) : prog (list byte) :=
  match n with
  | 0 => ret []
  | S k =>
      let* c := load p in
      let* cs := load_n (S p) k in
      ret (c :: cs)
  end.

(** A [std::ostream&] is a handle into [sinks]. *)
Definition ostream := nat.

Definition sink_append (stream : ostream) (bs : list byte) : prog unit := fun h =>
  match sinks h !! stream with
  | Some old => Some (tt, Machine (cells h) (<[stream:=old ++ bs]> (sinks h)) (log h))
  | None => None
  end.

(** The standard inserter [operator<<] of a [const char*] into a
    [std::ostream], on a stream in its default formatting state: measures the
    string, inserts that many chars, returns the stream. *)
Definition ostream_insert_cstr (stream : ostream) (str : addr) : prog ostream :=
  let* n := strlen str in
  let* bs := load_n str n in
  sink_append stream bs >>
  ret stream.

(** A [const std::string&]: [c_str()] points at [size() + 1] chars, the last
    of which is the terminator. *)
Record std_string : Type := StdString {
  str_c_str : addr;
  str_length : nat
}.

(** ** namespace stackie *)

Module details.

(** [template <size_t N> void copy_n_impl(const char src[],
    const size_t src_len, char dst[])] *)
Definition copy_n_impl (N : nat) (src : addr) (src_len : nat) (dst : addr)
  : prog unit :=
  let min_len := Nat.min src_len N in
  copy_n src min_len dst >>
  store (dst + min_len) NUL.

End details.

Module sstring.

(** An [sstring<N>] object is its only member, [char s[N + 1]]; a reference
    to the object is the address [this] of that array. *)
Definition s (this : addr) : addr := this.

(** [sstring<N>::c_str()] *)
Definition c_str (this : addr) : addr := s this.

(** [sstring<N>::capacity()] *)
Definition capacity (N : nat) : nat := N.

(** [sstring<N>::length()] *)
Definition length (this : addr) : prog nat := strlen (s this).

(** [sstring<N>::sstring()] *)
Definition ctor_default (this : addr) : prog unit :=
  store (s this + 0) NUL.

(** [sstring<N>::operator=(const sstring<M> &rhs)] *)
Definition assign_sstring (N M : nat) (this rhs : addr) : prog addr :=
  details.copy_n_impl N (c_str rhs) M (s this) >>
  ret this.

(** [sstring<N>::operator=(const char (&rhs)[M])] *)
Definition assign_array (N M : nat) (this rhs : addr) : prog addr :=
  details.copy_n_impl N rhs M (s this) >>
  ret this.

(** [sstring<N>::operator=(const char rhs[])] *)
Definition assign_cstr (N : nat) (this rhs : addr) : prog addr :=
  let* len := strlen rhs in
  details.copy_n_impl N rhs len (s this) >>
  ret this.

(** [sstring<N>::operator=(const std::string &rhs)] *)
Definition assign_string (N : nat) (this : addr) (rhs : std_string) : prog addr :=
  details.copy_n_impl N (str_c_str rhs) (str_length rhs) (s this) >>
  ret this.

(** The four converting constructors: [*this = rhs;] on the object's
    storage as it is found. *)
Definition ctor_sstring (N M : nat) (this rhs : addr) : prog unit :=
  assign_sstring N M this rhs >> ret tt.

Definition ctor_array (N M : nat) (this rhs : addr) : prog unit :=
  assign_array N M this rhs >> ret tt.

Definition ctor_cstr (N : nat) (this rhs : addr) : prog unit :=
  assign_cstr N this rhs >> ret tt.

Definition ctor_string (N : nat) (this : addr) (rhs : std_string) : prog unit :=
  assign_string N this rhs >> ret tt.

(** [operator<<(std::ostream &stream, const sstring<N> &rhs)] *)
Definition shl (stream : ostream) (rhs : addr) : prog ostream :=
  ostream_insert_cstr stream (c_str rhs).

End sstring.

(** ** Overload resolution

    The right-hand side of [=] (or the constructor argument) picks one of the
    four overloads by its static type. *)
Inductive source : Type :=
| OfSstring (M : nat) (rhs : addr)
| OfArray (M : nat) (rhs : addr)
| OfCstr (rhs : addr)
| OfString (rhs : std_string).

Definition assign (N : nat) (this : addr) (src : source) : prog addr :=
  match src with
  | OfSstring M rhs => sstring.assign_sstring N M this rhs
  | OfArray M rhs => sstring.assign_array N M this rhs
  | OfCstr rhs => sstring.assign_cstr N this rhs
  | OfString rhs => sstring.assign_string N this rhs
  end.

Definition construct (N : nat) (this : addr) (src : source) : prog unit :=
  match src with
  | OfSstring M rhs => sstring.ctor_sstring N M this rhs
  | OfArray M rhs => sstring.ctor_array N M this rhs
  | OfCstr rhs => sstring.ctor_cstr N this rhs
  | OfString rhs => sstring.ctor_string N this rhs
  end.

(** ** Vocabulary of the statements *)

(** The [n] bytes stored from address [p] on. *)
Definition bytes_at (h : machine) (p : addr) (n : nat) : list byte :=
  take n (drop p (cells h)).

(** The whole array [s] of the [sstring<N>] at [this]: [N + 1] bytes. *)
Definition buffer (N : nat) (this : addr) (h : machine) : list byte :=
  bytes_at h (sstring.s this) (S N).

(** The storage of [char s[N + 1]] at [this] lies inside the memory. *)
Definition allocated (N : nat) (this : addr) (h : machine) : Prop :=
  this + N < length (cells h).

(** Position of the first terminator of a byte sequence, if it has one. *)
Fixpoint nul_pos (bs : list byte) : option nat :=
  match bs with
  | [] => None
  | c :: bs' => if Byte.eqb c NUL then Some 0 else S <$> nul_pos bs'
  end.

(** The logical content of a byte sequence: what precedes its first
    terminator. *)
Fixpoint content (bs : list byte) : list byte :=
  match bs with
  | [] => []
  | c :: bs' => if Byte.eqb c NUL then [] else c :: content bs'
  end.

(** A byte sequence without a terminator in it. *)
Definition no_nul (bs : list byte) : bool :=
  forallb (fun c => negb (Byte.eqb c NUL)) bs.

(** The address the source's chars are read from. *)
Definition source_ptr (src : source) : addr :=
  match src with
  | OfSstring _ rhs => sstring.c_str rhs
  | OfArray _ rhs => rhs
  | OfCstr rhs => rhs
  | OfString rhs => str_c_str rhs
  end.

(** The count each overload hands to [copy_n_impl]: the declared size, the
    measured length, or the reported length. *)
Definition source_count (h : machine) (src : source) : nat :=
  match src with
  | OfSstring M _ => M
  | OfArray M _ => M
  | OfCstr rhs => default 0 (nul_pos (drop rhs (cells h)))
  | OfString rhs => str_length rhs
  end.

(** The number of bytes the source object owns from [source_ptr] on. *)
Definition source_extent (h : machine) (src : source) : nat :=
  match src with
  | OfSstring M _ => S M
  | OfArray M _ => M
  | OfCstr rhs => S (default 0 (nul_pos (drop rhs (cells h))))
  | OfString rhs => S (str_length rhs)
  end.

(** The source is a live object of its type: its storage lies inside the
    memory and, for a [const char*], it is null terminated. *)
Definition readable (h : machine) (src : source) : Prop :=
  match src with
  | OfSstring M rhs => allocated M rhs h
  | OfArray M rhs => rhs + M <= length (cells h)
  | OfCstr rhs => is_Some (nul_pos (drop rhs (cells h)))
  | OfString rhs => str_c_str rhs + str_length rhs < length (cells h)
  end.

(** The source's storage and the array [s] of the [sstring<N>] at [this]
    share no byte. *)
Definition apart (N : nat) (this : addr) (h : machine) (src : source) : Prop :=
  source_ptr src + source_extent h src <= this \/ this + N < source_ptr src.

(** The source spells the byte sequence [bs]: its chars are those of [bs],
    followed by the terminator. *)
Definition spells (h : machine) (src : source) (bs : list byte) : Prop :=
  no_nul bs = true /\
  bytes_at h (source_ptr src) (length bs + 1) = bs ++ [NUL] /\
  match src with
  | OfSstring M rhs => length bs <= M /\ allocated M rhs h
  | OfArray M rhs => M = length bs + 1
  | OfCstr rhs => True
  | OfString rhs => str_length rhs = length bs
  end.

(** The accesses of [copy_n first count result]. *)
Fixpoint copy_log (first : addr) (count : nat) (result : addr) : list access :=
  match count with
  | 0 => []
  | S k => Rd first :: Wr result :: copy_log (S first) k (S result)
  end.

(** The accesses of [strlen str] on a string of length [n]. *)
Definition scan_log (str : addr) (n : nat) : list access :=
  Rd <$> seq str (S n).

(** The accesses an overload makes before it calls [copy_n_impl]. *)
Definition measure_log (h : machine) (src : source) : list access :=
  match src with
  | OfCstr rhs => scan_log rhs (source_count h src)
  | _ => []
  end.


Definition in_range (lo n : nat) (a : addr) : Prop := lo <= a < lo + n.

(** Every read of [ev] falls in [n_src] bytes from [src] and every write in
    [n_dst] bytes from [dst]. *)
Definition within (src n_src dst n_dst : nat) (ev : list access) : Prop :=
  Forall (fun e => match e with
                   | Rd a => in_range src n_src a
                   | Wr a => in_range dst n_dst a
                   end) ev.

(** The copy is the one a forward, byte by byte [copy_n] gets right: the
    destination does not start inside the source range after its first
    byte. *)
Definition forward_safe (src n dst : nat) : Prop :=
  dst <= src \/ src + n <= dst.

(** What [copy_n_impl<N>(src, src_len, dst)] with [n = min(src_len, N)] does
    to a machine [h], giving [h']: [pre] are the accesses made before the
    call.  The memory keeps its size, the sinks are untouched, the accesses
    are those of the copy followed by the store of the terminator, the
    terminator sits at offset [n], nothing outside offsets [0..n] of [dst]
    changes, and, unless [dst] lies inside the source range after its first
    byte, offsets [0..n-1] of [dst] hold what the source held. *)
Definition copied (h h' : machine) (pre : list access) (src n dst : nat) : Prop :=
  length (cells h') = length (cells h) /\
  sinks h' = sinks h /\
  log h' = log h ++ pre ++ copy_log src n dst ++ [Wr (dst + n)] /\
  cells h' !! (dst + n) = Some NUL /\
  (forall a, a < dst \/ dst + n < a -> cells h' !! a = cells h !! a) /\
  (forward_safe src n dst ->
   forall i, i < n -> cells h' !! (dst + i) = cells h !! (src + i)).

(** [length()] on the object at [this] returns [L], and changes neither the
    memory nor the sinks. *)
Definition length_is (this : addr) (h : machine) (L : nat) : Prop :=
  exists h', sstring.length this h = Some (L, h') /\
             cells h' = cells h /\ sinks h' = sinks h.

(** The invariant of an [sstring<N>] at [this]: [length()] returns the
    position [L] of the first terminator of the array [s], [L] is at most
    [N], and the byte of [s] at index [L] is the terminator. *)
Definition invariant (N : nat) (this : addr) (h : machine) : Prop :=
  exists L,
    length_is this h L /\
    nul_pos (buffer N this h) = Some L /\
    L <= sstring.capacity N /\
    buffer N this h !! L = Some NUL.

(** ** A machine to run the header on

    The array [MSG] of the tests with its terminator at addresses 0 to 12;
    at 13 the storage of an [sstring<8>], not yet constructed; at 22 an
    [sstring<16>] that holds [MSG]; one output stream, with nothing written
    to it yet. *)
Definition MSG : list byte :=
  ["h"; "e"; "l"; "l"; "o"; " "; "w"; "o"; "r"; "l"; "d"; "!"].

Definition demo : machine :=
  Machine ((MSG ++ [NUL]) ++ repeat "x" 9 ++ (MSG ++ [NUL] ++ repeat "y" 4))
          [[]] [].

Definition demo_msg : addr := 0.
Definition demo_small : addr := 13.
Definition demo_big : addr := 22.

(** An [sstring<2>] at address 0 that holds the two chars [a], [b]. *)
Definition alias : machine := Machine ["a"; "b"; NUL] [] [].

(** Three objects side by side: an [sstring<2>] at address 0 that holds
    [hi], an [sstring<4>] at address 3 that holds [abc] (its last byte was
    never written), and at address 8 the storage of an [sstring<3>], not yet
    constructed; one output stream. *)
Definition trio : machine :=
  Machine (["h"; "i"; NUL] ++ ["a"; "b"; "c"; NUL; "x"] ++ repeat "z" 4)
          [[]] [].

Definition trio_two : addr := 0.
Definition trio_four : addr := 3.
Definition trio_three : addr := 8.

(** ** Memory accesses *)

Lemma load_ok h a c :
  cells h !! a = Some c ->
  load a h = Some (c, Machine (cells h) (sinks h) (log h ++ [Rd a])).
Proof. intros Hc. unfold load. by rewrite Hc. Qed.

Lemma store_ok h a c :
  a < length (cells h) ->
  store a c h = Some (tt, Machine (<[a:=c]> (cells h)) (sinks h) (log h ++ [Wr a])).
Proof. intros Ha. unfold store. by rewrite decide_True. Qed.

Lemma bytes_at_lookup h p n i :
  i < n -> bytes_at h p n !! i = cells h !! (p + i).
Proof.
  intros Hi. unfold bytes_at. by rewrite lookup_take_lt, lookup_drop.
Qed.

Lemma bytes_at_length h p n :
  p + n <= length (cells h) -> length (bytes_at h p n) = n.
Proof.
  intros Hn. unfold bytes_at. rewrite length_take, length_drop. lia.
Qed.

Lemma bytes_at_ext h1 h2 p q n :
  p + n <= length (cells h1) ->
  q + n <= length (cells h2) ->
  (forall i, i < n -> cells h1 !! (p + i) = cells h2 !! (q + i)) ->
  bytes_at h1 p n = bytes_at h2 q n.
Proof.
  intros H1 H2 Heq. apply list_eq. intros i.
  destruct (decide (i < n)) as [Hi|Hi].
  - rewrite !bytes_at_lookup by done. by apply Heq.
  - rewrite !lookup_ge_None_2; [done|rewrite bytes_at_length; lia..].
Qed.

(** ** [std::copy_n] *)

Lemma copy_log_within src n dst :
  within src n dst n (copy_log src n dst).
Proof.
  revert src dst. induction n as [|k IH]; intros src dst; [constructor|].
  simpl. repeat constructor; unfold in_range; try lia.
  eapply Forall_impl; [apply (IH (S src) (S dst))|].
  intros [a|a]; unfold in_range; lia.
Qed.


(** [copy_n] runs to completion when both ranges lie in the memory.  It
    changes only the destination range; when the destination does not start
    inside the source range after its first byte, the destination ends up
    holding what the source held. *)
Lemma copy_n_spec n : forall src dst h,
  src + n <= length (cells h) ->
  dst + n <= length (cells h) ->
  exists h',
    copy_n src n dst h = Some (tt, h') /\
    length (cells h') = length (cells h) /\
    sinks h' = sinks h /\
    log h' = log h ++ copy_log src n dst /\
    (forall a, a < dst \/ dst + n <= a -> cells h' !! a = cells h !! a) /\
    (dst <= src \/ src + n <= dst ->
     forall i, i < n -> cells h' !! (dst + i) = cells h !! (src + i)).
Proof.
  induction n as [|k IH]; intros src dst h Hs Hd.
  - exists h. simpl. rewrite app_nil_r. repeat split; auto. intros _ i Hi. lia.
  - destruct (lookup_lt_is_Some_2 (cells h) src) as [c Hc]; [lia|].
    simpl. unfold bind at 1. rewrite (load_ok _ _ _ Hc).
    unfold bind at 1. rewrite store_ok by (simpl; lia).
    set (h1 := Machine _ _ _).
    destruct (IH (S src) (S dst) h1) as (h' & Hrun & Hlen & Hsk & Hlog & Hfr & Hcp).
    { subst h1. simpl. rewrite length_insert. lia. }
    { subst h1. simpl. rewrite length_insert. lia. }
    exists h'. split; [exact Hrun|].
    subst h1. simpl in *. rewrite length_insert in Hlen.
    split; [exact Hlen|]. split; [exact Hsk|].
    split; [rewrite Hlog, <- !app_assoc; reflexivity|].
    split.
    + intros a Ha. rewrite Hfr by lia. apply list_lookup_insert_ne. lia.
    + intros Hsafe i Hi. destruct i as [|i].
      * rewrite Nat.add_0_r. rewrite Hfr by lia.
        rewrite list_lookup_insert_eq by lia. by rewrite Nat.add_0_r.
      * rewrite Nat.add_succ_r. rewrite Hcp by lia. rewrite list_lookup_insert_ne by lia.
        by rewrite Nat.add_succ_r.
Qed.

(** ** Terminators and [std::strlen] *)

Lemma eqb_NUL_true c : Byte.eqb c NUL = true <-> c = NUL.
Proof. split; [apply byte_dec_bl|apply byte_dec_lb]. Qed.

Lemma eqb_NUL_false c : Byte.eqb c NUL = false <-> c <> NUL.
Proof.
  split; [apply eqb_false|].
  intros Hc. destruct (Byte.eqb c NUL) eqn:E; [|done].
  by apply eqb_NUL_true in E.
Qed.

Lemma no_nul_lookup bs :
  no_nul bs = true <-> forall i c, bs !! i = Some c -> c <> NUL.
Proof.
  unfold no_nul. induction bs as [|b bs IH]; simpl.
  - split; [intros _ i c Hi; by rewrite lookup_nil in Hi|done].
  - rewrite andb_true_iff, negb_true_iff, eqb_NUL_false, IH. split.
    + intros [Hb Hbs] [|i] c Hi; simpl in Hi; [by injection Hi as <-|eauto].
    + intros H. split; [by apply (H 0)|]. intros i c Hi. by apply (H (S i)).
Qed.

Lemma nul_pos_Some bs n :
  nul_pos bs = Some n <-> bs !! n = Some NUL /\ no_nul (take n bs) = true.
Proof.
  revert n. induction bs as [|b bs IH]; intros n; simpl.
  - split; [done|]. intros [H _]. by rewrite lookup_nil in H.
  - destruct (Byte.eqb b NUL) eqn:E.
    + apply eqb_NUL_true in E as ->. split.
      * intros [= <-]. by rewrite take_0.
      * intros [_ H]. destruct n as [|n]; [done|]. simpl in H. discriminate H.
    + destruct n as [|n]; simpl.
      * split; [by destruct (nul_pos bs)|].
        intros [[= ->] _]. by rewrite (byte_dec_lb eq_refl) in E.
      * unfold no_nul. simpl. rewrite E. simpl. rewrite <- (IH n).
        destruct (nul_pos bs) as [m|]; simpl; [|done].
        split; intros [= ->]; done.
Qed.

Lemma nul_pos_lt bs n : nul_pos bs = Some n -> n < length bs.
Proof.
  rewrite nul_pos_Some. intros [H _]. by apply lookup_lt_Some in H.
Qed.

(** A terminator somewhere means a first one at or before it. *)
Lemma nul_pos_exists bs k :
  bs !! k = Some NUL -> exists n, n <= k /\ nul_pos bs = Some n.
Proof.
  revert k. induction bs as [|b bs IH]; intros k Hk.
  - by rewrite lookup_nil in Hk.
  - simpl. destruct (Byte.eqb b NUL) eqn:E.
    + exists 0. split; [lia|done].
    + destruct k as [|k]; simpl in Hk.
      * injection Hk as ->. by rewrite (byte_dec_lb eq_refl) in E.
      * destruct (IH k Hk) as (n & Hn & ->). exists (S n). split; [lia|done].
Qed.

Lemma content_take bs n : nul_pos bs = Some n -> content bs = take n bs.
Proof.
  revert n. induction bs as [|b bs IH]; intros n; simpl; [done|].
  destruct (Byte.eqb b NUL); [by intros [= <-]|].
  destruct (nul_pos bs) as [m|]; simpl; [|done].
  intros [= <-]. simpl. by rewrite (IH m).
Qed.

(** Two byte sequences that agree up to and including the first terminator
    of one of them have the same first terminator. *)
Lemma nul_pos_agree bs1 bs2 n :
  nul_pos bs1 = Some n ->
  (forall i, i <= n -> bs2 !! i = bs1 !! i) ->
  nul_pos bs2 = Some n.
Proof.
  rewrite !nul_pos_Some, !no_nul_lookup. intros [Hn Hlt] Heq. split.
  - by rewrite Heq.
  - intros i c Hi. apply lookup_take_Some in Hi as [Hi Hin].
    apply (Hlt i). rewrite lookup_take_lt by done. by rewrite <- Heq by lia.
Qed.

Lemma strlen_scan_spec fuel : forall str n h k,
  nul_pos (drop (str + n) (cells h)) = Some k ->
  k < fuel ->
  strlen_scan fuel str n h =
    Some (n + k, Machine (cells h) (sinks h) (log h ++ scan_log (str + n) k)).
Proof.
  induction fuel as [|f IH]; intros str n h k Hk Hf; [lia|].
  simpl. unfold bind.
  destruct (drop (str + n) (cells h)) as [|c rest] eqn:Hd; [done|].
  assert (Hc : cells h !! (str + n) = Some c).
  { pose proof (lookup_drop (cells h) (str + n) 0) as H0.
    rewrite Hd, Nat.add_0_r in H0. by rewrite <- H0. }
  assert (Hrest : rest = drop (str + S n) (cells h)).
  { replace (str + S n) with (str + n + 1) by lia.
    by rewrite <- drop_drop, Hd. }
  rewrite (load_ok _ _ _ Hc). simpl in Hk.
  destruct (Byte.eqb c NUL) eqn:E.
  - injection Hk as <-. unfold ret. by rewrite Nat.add_0_r.
  - destruct (nul_pos rest) as [k'|] eqn:Hk'; simpl in Hk; [|done].
    injection Hk as <-. rewrite Hrest in Hk'.
    rewrite (IH str (S n) _ k') by (simpl; done || lia). simpl.
    f_equal. f_equal; [lia|]. f_equal.
    rewrite <- app_assoc. f_equal. unfold scan_log. simpl.
    by rewrite Nat.add_succ_r.
Qed.

(** [strlen] returns the position of the first terminator, having read
    every byte up to and including it. *)
Lemma strlen_first_nul str h n :
  nul_pos (drop str (cells h)) = Some n ->
  strlen str h = Some (n, Machine (cells h) (sinks h) (log h ++ scan_log str n)).
Proof.
  intros Hn. unfold strlen.
  pose proof (nul_pos_lt _ _ Hn) as Hlt. rewrite length_drop in Hlt.
  rewrite (strlen_scan_spec _ str 0 h n).
  - by rewrite Nat.add_0_r.
  - by rewrite Nat.add_0_r.
  - lia.
Qed.

Lemma scan_log_within str n dst m :
  within str (S n) dst m (scan_log str n).
Proof.
  unfold within, scan_log. apply Forall_fmap, Forall_forall.
  intros a Ha. apply elem_of_seq in Ha. simpl. unfold in_range. lia.
Qed.

(** ** The truncating copy *)

Lemma copy_n_impl_spec N src src_len dst h :
  src + Nat.min src_len N <= length (cells h) ->
  dst + N < length (cells h) ->
  exists h',
    details.copy_n_impl N src src_len dst h = Some (tt, h') /\
    copied h h' [] src (Nat.min src_len N) dst.
Proof.
  intros Hs Hd. unfold details.copy_n_impl.
  set (n := Nat.min src_len N) in *.
  assert (Hn : n <= N) by (subst n; lia).
  destruct (copy_n_spec n src dst h) as (h1 & Hrun & Hlen & Hsk & Hlog & Hfr & Hcp);
    [lia..|].
  unfold bind. rewrite Hrun. rewrite store_ok by lia.
  eexists. split; [reflexivity|]. unfold copied. simpl.
  rewrite length_insert, Hlog, <- app_assoc.
  repeat split; auto.
  - apply list_lookup_insert_eq. lia.
  - intros a Ha. rewrite list_lookup_insert_ne by lia. apply Hfr. lia.
  - intros Hsafe i Hi. rewrite list_lookup_insert_ne by lia. by apply Hcp.
Qed.

Lemma readable_in_memory h src N :
  readable h src ->
  source_ptr src + Nat.min (source_count h src) N <= length (cells h).
Proof.
  destruct src as [M rhs|M rhs|rhs|rhs]; simpl;
    unfold allocated, sstring.c_str, sstring.s.
  - lia.
  - lia.
  - intros [k Hk]. rewrite Hk. simpl.
    apply nul_pos_lt in Hk. rewrite length_drop in Hk. lia.
  - lia.
Qed.

(** Every overload of [operator=] runs to completion on a live source and an
    allocated destination, returns [*this], and has the effect of the
    truncating copy with the count of its shape. *)
Lemma assign_spec N this src h :
  readable h src ->
  allocated N this h ->
  exists h',
    assign N this src h = Some (this, h') /\
    copied h h' (measure_log h src) (source_ptr src)
      (Nat.min (source_count h src) N) this.
Proof.
  intros Hr Ha. pose proof (readable_in_memory h src N Hr) as Hm.
  destruct src as [M rhs|M rhs|rhs|rhs]; simpl in *.
  - unfold sstring.assign_sstring, bind.
    destruct (copy_n_impl_spec N (sstring.c_str rhs) M (sstring.s this) h)
      as (h' & -> & Hc); [done..|].
    by exists h'.
  - unfold sstring.assign_array, bind.
    destruct (copy_n_impl_spec N rhs M (sstring.s this) h)
      as (h' & -> & Hc); [done..|].
    by exists h'.
  - destruct Hr as [k Hk]. rewrite Hk in *. simpl in *.
    unfold sstring.assign_cstr, bind. rewrite (strlen_first_nul _ _ _ Hk).
    set (h1 := Machine _ _ _).
    destruct (copy_n_impl_spec N rhs k (sstring.s this) h1)
      as (h' & -> & Hc); [done..|].
    exists h'. split; [done|].
    destruct Hc as (Hlen & Hsk & Hlog & Hnul & Hfr & Hcp).
    subst h1. simpl in *. unfold copied.
    rewrite Hlog, <- !app_assoc. by repeat split.
  - unfold sstring.assign_string, bind.
    destruct (copy_n_impl_spec N (str_c_str rhs) (str_length rhs) (sstring.s this) h)
      as (h' & -> & Hc); [done..|].
    by exists h'.
Qed.

(** The converting constructors are the assignments, with the result
    dropped. *)
Lemma construct_assign N this src h :
  construct N this src h =
    match assign N this src h with
    | Some (_, h') => Some (tt, h')
    | None => None
    end.
Proof. by destruct src. Qed.

(** ** Lengths and sources *)

Lemma nul_pos_take bs n k :
  nul_pos bs = Some n -> n < k -> nul_pos (take k bs) = Some n.
Proof.
  intros Hn Hk. apply (nul_pos_agree bs); [done|].
  intros i Hi. apply lookup_take_lt. lia.
Qed.

Lemma nul_pos_of_take bs n k :
  nul_pos (take k bs) = Some n -> nul_pos bs = Some n.
Proof.
  intros Hn. pose proof (nul_pos_lt _ _ Hn) as Hlt.
  rewrite length_take in Hlt.
  apply (nul_pos_agree (take k bs)); [done|].
  intros i Hi. symmetry. apply lookup_take_lt. lia.
Qed.

Lemma nul_pos_buffer N this h L :
  nul_pos (buffer N this h) = Some L <->
  nul_pos (drop this (cells h)) = Some L /\ L <= N.
Proof.
  unfold buffer, bytes_at, sstring.s. split.
  - intros H. split; [by apply nul_pos_of_take in H|].
    apply nul_pos_lt in H. rewrite length_take in H. lia.
  - intros [H HL]. apply nul_pos_take; [done|lia].
Qed.

Lemma length_is_nul_pos this h L :
  nul_pos (drop this (cells h)) = Some L -> length_is this h L.
Proof.
  intros HL. unfold length_is, sstring.length, sstring.s.
  rewrite (strlen_first_nul _ _ _ HL). by eexists.
Qed.

(** The first terminator from [p] is found from what the memory holds at
    [p], [p + 1], ... up to it. *)
Lemma nul_pos_drop_Some h p n :
  nul_pos (drop p (cells h)) = Some n <->
  cells h !! (p + n) = Some NUL /\
  forall i c, i < n -> cells h !! (p + i) = Some c -> c <> NUL.
Proof.
  rewrite nul_pos_Some, no_nul_lookup, lookup_drop. split.
  - intros [Hn Hlt]. split; [done|]. intros i c Hi Hc.
    apply (Hlt i). by rewrite lookup_take_lt, lookup_drop.
  - intros [Hn Hlt]. split; [done|]. intros i c Hc.
    apply lookup_take_Some in Hc as [Hc Hi]. rewrite lookup_drop in Hc. eauto.
Qed.

(** Memories that agree on the string at [p] give it the same length. *)
Lemma nul_pos_drop_agree h1 h2 p n :
  nul_pos (drop p (cells h1)) = Some n ->
  (forall i, i <= n -> cells h2 !! (p + i) = cells h1 !! (p + i)) ->
  nul_pos (drop p (cells h2)) = Some n.
Proof.
  intros Hn Heq. apply (nul_pos_agree (drop p (cells h1))); [done|].
  intros i Hi. rewrite !lookup_drop. by apply Heq.
Qed.

Lemma load_n_spec n : forall p h,
  p + n <= length (cells h) ->
  load_n p n h =
    Some (bytes_at h p n, Machine (cells h) (sinks h) (log h ++ (Rd <$> seq p n))).
Proof.
  induction n as [|k IH]; intros p h Hp.
  - simpl. unfold ret, bytes_at. rewrite take_0, app_nil_r. by destruct h.
  - destruct (lookup_lt_is_Some_2 (cells h) p) as [c Hc]; [lia|].
    simpl. unfold bind. rewrite (load_ok _ _ _ Hc).
    rewrite IH by (simpl; lia). unfold ret. simpl.
    rewrite <- app_assoc. simpl. do 2 f_equal.
    unfold bytes_at. by rewrite (drop_S _ _ _ Hc).
Qed.

Lemma source_count_extent h src : source_count h src <= source_extent h src.
Proof. destruct src; simpl; lia. Qed.

Lemma apart_forward_safe N this h src n :
  apart N this h src -> n <= source_count h src ->
  forward_safe (source_ptr src) n this.
Proof.
  pose proof (source_count_extent h src).
  unfold apart, forward_safe. lia.
Qed.

Lemma spells_lookup h src bs :
  spells h src bs ->
  cells h !! (source_ptr src + length bs) = Some NUL /\
  forall i, i < length bs -> cells h !! (source_ptr src + i) = bs !! i.
Proof.
  intros (_ & Hb & _).
  assert (Hl : forall i, i < length bs + 1 ->
            cells h !! (source_ptr src + i) = (bs ++ [NUL]) !! i).
  { intros i Hi. by rewrite <- Hb, bytes_at_lookup. }
  split.
  - rewrite Hl by lia. by rewrite lookup_app_r, Nat.sub_diag.
  - intros i Hi. rewrite Hl by lia. by rewrite lookup_app_l.
Qed.

Lemma spells_nul_pos h src bs :
  spells h src bs ->
  nul_pos (drop (source_ptr src) (cells h)) = Some (length bs).
Proof.
  intros Hsp. destruct (spells_lookup _ _ _ Hsp) as [Hn Hlt].
  destruct Hsp as (Hnn & _ & _). rewrite no_nul_lookup in Hnn.
  apply nul_pos_drop_Some. split; [done|].
  intros i c Hi Hc. rewrite Hlt in Hc by done. eauto.
Qed.

Lemma spells_readable h src bs :
  spells h src bs ->
  readable h src /\ length bs <= source_count h src.
Proof.
  intros Hsp. pose proof (spells_nul_pos _ _ _ Hsp) as Hn.
  pose proof (nul_pos_lt _ _ Hn) as Hlt. rewrite length_drop in Hlt.
  destruct Hsp as (_ & _ & Hshape).
  destruct src as [M rhs|M rhs|rhs|rhs]; simpl in *.
  - destruct Hshape. split; [done|lia].
  - split; lia.
  - rewrite Hn. simpl. split; [by eexists|lia].
  - split; lia.
Qed.

Lemma bytes_at_snoc h p n c :
  cells h !! (p + n) = Some c ->
  bytes_at h p (n + 1) = bytes_at h p n ++ [c].
Proof.
  intros Hc. unfold bytes_at. rewrite Nat.add_1_r.
  apply take_S_r. by rewrite lookup_drop.
Qed.

(** Assigning a source that spells [bs]: the destination holds the first
    [min (length bs) N] bytes of [bs], then the terminator, and that is
    where its first terminator is. *)
Lemma assign_spells N this src h bs :
  allocated N this h ->
  spells h src bs ->
  forward_safe (source_ptr src) (Nat.min (source_count h src) N) this ->
  exists h',
    assign N this src h = Some (this, h') /\
    bytes_at h' this (Nat.min (length bs) N) = take (Nat.min (length bs) N) bs /\
    cells h' !! (this + Nat.min (length bs) N) = Some NUL /\
    nul_pos (drop this (cells h')) = Some (Nat.min (length bs) N).
Proof.
  intros Ha Hsp Hsafe.
  destruct (spells_readable _ _ _ Hsp) as [Hr Hcount].
  destruct (spells_lookup _ _ _ Hsp) as [Hend Hbs].
  destruct (assign_spec N this src h Hr Ha)
    as (h' & Hrun & Hlen & _ & _ & Hnul & _ & Hcp).
  specialize (Hcp Hsafe).
  set (n := Nat.min (source_count h src) N) in *.
  set (L := Nat.min (length bs) N).
  assert (HLn : L <= n) by (subst L n; lia).
  assert (Hpre : forall i, i < L -> cells h' !! (this + i) = bs !! i).
  { intros i Hi. rewrite Hcp by lia. apply Hbs. subst L. lia. }
  assert (Hterm : cells h' !! (this + L) = Some NUL).
  { destruct (decide (L = n)) as [->|Hne]; [done|].
    assert (L = length bs) as -> by (subst L n; lia).
    rewrite Hcp by lia. done. }
  exists h'. split; [done|]. split; [|split; [done|]].
  - apply list_eq. intros i. destruct (decide (i < L)) as [Hi|Hi].
    + rewrite bytes_at_lookup, lookup_take_lt by done. by apply Hpre.
    + rewrite !lookup_ge_None_2; [done| |].
      * rewrite length_take. lia.
      * apply lookup_lt_Some in Hterm. rewrite bytes_at_length; lia.
  - apply nul_pos_drop_Some. split; [done|]. intros i c Hi Hc.
    rewrite Hpre in Hc by done.
    destruct Hsp as (Hnn & _). rewrite no_nul_lookup in Hnn. eauto.
Qed.

(** ** Copies between [sstring]s of different capacities *)



(** ** Construction from a byte sequence *)

(** C2.  For every capacity [N] and every null-terminated byte sequence [bs]
    longer than [N], an [sstring<N>] constructed from [bs] (through any of
    the overloads) has [length() == N], the first [N] bytes of [c_str()] are
    the first [N] bytes of [bs], and the byte at offset [N] is the
    terminator. *)
Theorem construct_truncates N this src h bs :
  allocated N this h ->
  spells h src bs ->
  apart N this h src ->
  N < length bs ->
  exists h',
    construct N this src h = Some (tt, h') /\
    length_is this h' N /\
    bytes_at h' (sstring.c_str this) N = take N bs /\
    cells h' !! (sstring.c_str this + N) = Some NUL.
Proof.
  intros Ha Hsp Hap Hlen.
  destruct (assign_spells N this src h bs Ha Hsp) as (h' & Hrun & Hb & Hn & Hp).
  { eapply apart_forward_safe; [done|lia]. }
  replace (Nat.min (length bs) N) with N in * by lia.
  exists h'. rewrite construct_assign, Hrun. unfold sstring.c_str, sstring.s.
  split; [done|]. split; [by apply length_is_nul_pos|done].
Qed.

Lemma construct_truncates_witness :
  allocated 8 demo_small demo /\
  spells demo (OfArray 13 demo_msg) MSG /\
  apart 8 demo_small demo (OfArray 13 demo_msg) /\
  8 < length MSG /\
  exists h',
    construct 8 demo_small (OfArray 13 demo_msg) demo = Some (tt, h') /\
    length_is demo_small h' 8 /\
    bytes_at h' (sstring.c_str demo_small) 8 = take 8 MSG /\
    cells h' !! (sstring.c_str demo_small + 8) = Some NUL.
Proof.
  assert (H1 : allocated 8 demo_small demo) by (vm_compute; lia).
  assert (H2 : spells demo (OfArray 13 demo_msg) MSG) by (vm_compute; auto).
  assert (H3 : apart 8 demo_small demo (OfArray 13 demo_msg)) by (vm_compute; lia).
  assert (H4 : 8 < length MSG) by (vm_compute; lia).
  exact (conj H1 (conj H2 (conj H3 (conj H4
    (construct_truncates 8 demo_small (OfArray 13 demo_msg) demo MSG H1 H2 H3 H4))))).
Defined.

(** C3.  For every capacity [N] and every byte sequence [bs] without a
    terminator in it and of length at most [N], an [sstring<N>] constructed
    from [bs] has [length() == length bs] and its array starts with [bs]
    followed by the terminator.  This holds for each overload, so for the
    [const char*] and the [std::string] ones. *)
Theorem construct_round_trip N this src h bs :
  allocated N this h ->
  spells h src bs ->
  apart N this h src ->
  length bs <= N ->
  exists h',
    construct N this src h = Some (tt, h') /\
    length_is this h' (length bs) /\
    bytes_at h' (sstring.c_str this) (length bs + 1) = bs ++ [NUL].
Proof.
  intros Ha Hsp Hap Hlen.
  destruct (assign_spells N this src h bs Ha Hsp) as (h' & Hrun & Hb & Hn & Hp).
  { eapply apart_forward_safe; [done|lia]. }
  replace (Nat.min (length bs) N) with (length bs) in * by lia.
  exists h'. rewrite construct_assign, Hrun. unfold sstring.c_str, sstring.s.
  split; [done|]. split; [by apply length_is_nul_pos|].
  rewrite (bytes_at_snoc _ _ _ _ Hn), Hb. by rewrite firstn_all.
Qed.

Lemma construct_round_trip_witness :
  allocated 16 demo_big demo /\
  spells demo (OfCstr demo_msg) MSG /\
  apart 16 demo_big demo (OfCstr demo_msg) /\
  length MSG <= 16 /\
  exists h',
    construct 16 demo_big (OfCstr demo_msg) demo = Some (tt, h') /\
    length_is demo_big h' (length MSG) /\
    bytes_at h' (sstring.c_str demo_big) (length MSG + 1) = MSG ++ [NUL].
Proof.
  assert (H1 : allocated 16 demo_big demo) by (vm_compute; lia).
  assert (H2 : spells demo (OfCstr demo_msg) MSG) by (vm_compute; auto).
  assert (H3 : apart 16 demo_big demo (OfCstr demo_msg)) by (vm_compute; lia).
  assert (H4 : length MSG <= 16) by (vm_compute; lia).
  exact (conj H1 (conj H2 (conj H3 (conj H4
    (construct_round_trip 16 demo_big (OfCstr demo_msg) demo MSG H1 H2 H3 H4))))).
Defined.

(** ** The invariant *)

Lemma invariant_intro N this h k :
  cells h !! (this + k) = Some NUL -> k <= N -> invariant N this h.
Proof.
  intros Hk HkN.
  destruct (nul_pos_exists (drop this (cells h)) k) as (L & HL & Hpos).
  { by rewrite lookup_drop. }
  assert (Hbuf : nul_pos (buffer N this h) = Some L).
  { apply nul_pos_buffer. split; [done|lia]. }
  exists L. split; [by apply length_is_nul_pos|]. split; [done|].
  split; [unfold sstring.capacity; lia|].
  by apply nul_pos_Some in Hbuf as [? _].
Qed.



(** ** Bounds of the accesses *)

Lemma within_mono src n dst m n' m' ev :
  within src n dst m ev -> n <= n' -> m <= m' -> within src n' dst m' ev.
Proof.
  intros Hw Hn Hm. eapply Forall_impl; [exact Hw|].
  intros [a|a]; unfold in_range; lia.
Qed.


Lemma measure_log_within h src dst m :
  within (source_ptr src) (source_extent h src) dst m (measure_log h src).
Proof.
  destruct src as [M rhs|M rhs|rhs|rhs]; simpl; try by constructor.
  apply scan_log_within.
Qed.



(** ** Assignments that start from different states *)

(** A source that shares no byte with the array [s] is the same source in
    every machine that differs only inside [s]. *)
Lemma apart_stable N this src hA hB :
  apart N this hA src ->
  readable hA src ->
  length (cells hB) = length (cells hA) ->
  (forall a, a < this \/ this + N < a -> cells hB !! a = cells hA !! a) ->
  readable hB src /\
  source_count hB src = source_count hA src /\
  forall i, i < source_extent hA src ->
    cells hB !! (source_ptr src + i) = cells hA !! (source_ptr src + i).
Proof.
  intros Hap Hr Hlen Hfr.
  assert (Hsrc : forall i, i < source_extent hA src ->
            cells hB !! (source_ptr src + i) = cells hA !! (source_ptr src + i)).
  { intros i Hi. apply Hfr. unfold apart in Hap. lia. }
  split; [|split; [|done]].
  - destruct src as [M rhs|M rhs|rhs|rhs]; simpl in *;
      unfold allocated in *; try lia.
    destruct Hr as [k Hk]. rewrite Hk in Hsrc. simpl in Hsrc.
    exists k. apply (nul_pos_drop_agree hA); [done|].
    intros i Hi. apply Hsrc. lia.
  - destruct src as [M rhs|M rhs|rhs|rhs]; simpl in *; try done.
    destruct Hr as [k Hk]. rewrite Hk in *. simpl in Hsrc.
    rewrite (nul_pos_drop_agree hA hB rhs k); [done..|].
    intros i Hi. apply Hsrc. lia.
Qed.

(** What an assignment leaves at an address the two starting memories
    agree on, or at an address it writes, depends only on the bytes it
    copies. *)
Lemma assign_agree N this src hA hB hA' hB' :
  allocated N this hA ->
  readable hA src ->
  readable hB src ->
  length (cells hB) = length (cells hA) ->
  source_count hB src = source_count hA src ->
  forward_safe (source_ptr src) (Nat.min (source_count hA src) N) this ->
  (forall i, i < Nat.min (source_count hA src) N ->
     cells hB !! (source_ptr src + i) = cells hA !! (source_ptr src + i)) ->
  assign N this src hA = Some (this, hA') ->
  assign N this src hB = Some (this, hB') ->
  forall a,
    in_range this (S (Nat.min (source_count hA src) N)) a \/
    cells hB !! a = cells hA !! a ->
    cells hB' !! a = cells hA' !! a.
Proof.
  intros Ha HrA HrB Hlen Hcnt Hsafe Hsrc HA HB a Hcase.
  assert (Hb : allocated N this hB) by (unfold allocated in *; lia).
  destruct (assign_spec N this src hA HrA Ha)
    as (? & HA2 & HlA & _ & _ & HnA & HfA & HcA).
  rewrite HA in HA2. injection HA2 as <-.
  destruct (assign_spec N this src hB HrB Hb)
    as (? & HB2 & HlB & _ & _ & HnB & HfB & HcB).
  rewrite HB in HB2. injection HB2 as <-.
  rewrite Hcnt in *. set (n := Nat.min (source_count hA src) N) in *.
  unfold in_range in Hcase.
  destruct (decide (a < this \/ this + n < a)) as [Hfar|Hnear].
  - rewrite HfA, HfB by done. destruct Hcase; [lia|done].
  - destruct (decide (a = this + n)) as [->|Hne].
    + by rewrite HnA, HnB.
    + replace a with (this + (a - this)) by lia.
      rewrite HcA, HcB by (done || lia). apply Hsrc. lia.
Qed.

(** Two memories that agree on the array [s] up to a terminator give the
    object the same logical content and the same length. *)
Lemma written_agree N this h1 h2 n :
  allocated N this h1 ->
  length (cells h2) = length (cells h1) ->
  n <= N ->
  cells h1 !! (this + n) = Some NUL ->
  (forall i, i <= n -> cells h2 !! (this + i) = cells h1 !! (this + i)) ->
  content (buffer N this h2) = content (buffer N this h1) /\
  exists L, length_is this h1 L /\ length_is this h2 L.
Proof.
  intros Ha Hlen HnN Hnul Heq.
  destruct (nul_pos_exists (drop this (cells h1)) n) as (L & HL & Hpos1).
  { by rewrite lookup_drop. }
  assert (Hpos2 : nul_pos (drop this (cells h2)) = Some L).
  { apply (nul_pos_drop_agree h1); [done|]. intros i Hi. apply Heq. lia. }
  assert (Hcontent : forall h, nul_pos (drop this (cells h)) = Some L ->
            content (buffer N this h) = bytes_at h this L).
  { intros h Hpos. rewrite (content_take _ L).
    - unfold buffer, bytes_at, sstring.s. rewrite take_take.
      by replace (Nat.min L (S N)) with L by lia.
    - apply nul_pos_buffer. split; [done|lia]. }
  split.
  - rewrite !Hcontent by done. unfold allocated in Ha.
    apply bytes_at_ext; [lia..|]. intros i Hi. apply Heq. lia.
  - exists L. split; by apply length_is_nul_pos.
Qed.

Lemma buffer_length_agree N this h1 h2 :
  allocated N this h1 ->
  cells h2 = cells h1 ->
  invariant N this h1 ->
  buffer N this h2 = buffer N this h1 /\
  exists L, length_is this h1 L /\ length_is this h2 L.
Proof.
  intros _ Hc (L & HL & Hpos & _). unfold buffer, bytes_at. rewrite Hc.
  split; [done|]. exists L. split; [done|].
  apply length_is_nul_pos. rewrite Hc. by apply nul_pos_buffer in Hpos as [? _].
Qed.

Lemma assign_invariant N this src h h' :
  allocated N this h ->
  readable h src ->
  assign N this src h = Some (this, h') ->
  allocated N this h' /\ invariant N this h'.
Proof.
  intros Ha Hr Hrun.
  destruct (assign_spec N this src h Hr Ha)
    as (? & Hrun2 & Hlen & _ & _ & Hnul & _ & _).
  rewrite Hrun in Hrun2. injection Hrun2 as <-.
  split; [unfold allocated in *; lia|].
  apply (invariant_intro _ _ _ _ Hnul). lia.
Qed.

(** ** Construction and assignment *)



(** ** Assigning twice *)

(** C7, as the code has it.  For every capacity [N], every source of any of
    the four shapes whose storage shares no byte with the array [s] of the
    destination, and every state of the destination, assigning the source
    twice in a row leaves the same array and the same length as assigning it
    once; the whole memory is the same. *)
Theorem assign_twice_apart N this src h :
  allocated N this h ->
  readable h src ->
  apart N this h src ->
  exists h1 h2,
    assign N this src h = Some (this, h1) /\
    assign N this src h1 = Some (this, h2) /\
    buffer N this h2 = buffer N this h1 /\
    (exists L, length_is this h1 L /\ length_is this h2 L) /\
    cells h2 = cells h1.
Proof.
  intros Ha Hr Hap.
  destruct (assign_spec N this src h Hr Ha)
    as (h1 & Hrun1 & Hlen1 & _ & _ & _ & Hfr1 & _).
  destruct (assign_invariant _ _ _ _ _ Ha Hr Hrun1) as [Ha1 Hinv1].
  destruct (apart_stable N this src h h1 Hap Hr Hlen1) as (Hr1 & Hcnt & Hsrc).
  { intros a Hfar. apply Hfr1. lia. }
  destruct (assign_spec N this src h1 Hr1 Ha1) as (h2 & Hrun2 & _).
  assert (Hcells : cells h2 = cells h1).
  { pose proof (source_count_extent h src) as Hce.
    apply list_eq. intros a.
    apply (assign_agree N this src h h1 h1 h2); try done.
    - eapply apart_forward_safe; [done|lia].
    - intros i Hi. apply Hsrc. lia.
    - unfold in_range.
      destruct (decide (a < this \/ this + Nat.min (source_count h src) N < a));
        [right; by apply Hfr1|left; lia]. }
  exists h1, h2. split; [done|]. split; [done|].
  destruct (buffer_length_agree N this h1 h2 Ha1 Hcells Hinv1) as [Hb HL].
  done.
Qed.

Lemma assign_twice_apart_witness :
  allocated 8 demo_small demo /\
  readable demo (OfCstr demo_msg) /\
  apart 8 demo_small demo (OfCstr demo_msg) /\
  exists h1 h2,
    assign 8 demo_small (OfCstr demo_msg) demo = Some (demo_small, h1) /\
    assign 8 demo_small (OfCstr demo_msg) h1 = Some (demo_small, h2) /\
    buffer 8 demo_small h2 = buffer 8 demo_small h1 /\
    (exists L, length_is demo_small h1 L /\ length_is demo_small h2 L) /\
    cells h2 = cells h1.
Proof.
  assert (H1 : allocated 8 demo_small demo) by (vm_compute; lia).
  assert (H2 : readable demo (OfCstr demo_msg)) by (vm_compute; eauto).
  assert (H3 : apart 8 demo_small demo (OfCstr demo_msg)) by (vm_compute; lia).
  exact (conj H1 (conj H2 (conj H3
    (assign_twice_apart 8 demo_small (OfCstr demo_msg) demo H1 H2 H3)))).
Defined.

(** C7, as stated, fails when the source is a [const char*] into the
    destination's own array: with [sstring<2> s = "ab"] and
    [p = s.c_str() + 1], the first [s = p] leaves ["b"] and the second one
    leaves the empty string. *)
Lemma assign_twice_alias_differs :
  invariant 2 0 alias /\
  readable alias (OfCstr (sstring.c_str 0 + 1)) /\
  exists h1 h2,
    assign 2 0 (OfCstr (sstring.c_str 0 + 1)) alias = Some (0, h1) /\
    assign 2 0 (OfCstr (sstring.c_str 0 + 1)) h1 = Some (0, h2) /\
    buffer 2 0 h1 = ["b"; NUL; NUL] /\
    buffer 2 0 h2 = [NUL; NUL; NUL] /\
    buffer 2 0 h2 <> buffer 2 0 h1 /\
    length_is 0 h1 1 /\
    length_is 0 h2 0.
Proof.
  split.
  { exists 2. split; [eexists; vm_compute; eauto|].
    split; [reflexivity|]. split; [vm_compute; lia|reflexivity]. }
  split; [vm_compute; eauto|].
  eexists _, _. split; [vm_compute; reflexivity|].
  split; [vm_compute; reflexivity|].
  split; [reflexivity|]. split; [reflexivity|]. split; [discriminate|].
  split; eexists; vm_compute; eauto.
Qed.

(** ** The stream inserter *)

(** C8.  For every capacity [N] and every [sstring<N>], [stream << rhs]
    appends to the sink the bytes of the array that precede its first
    terminator, and nothing else, and returns the same stream; it changes
    neither the memory nor any other sink. *)
Theorem shl_writes_content N stream this h old :
  allocated N this h ->
  invariant N this h ->
  sinks h !! stream = Some old ->
  exists h',
    sstring.shl stream this h = Some (stream, h') /\
    sinks h' = <[stream := old ++ content (buffer N this h)]> (sinks h) /\
    cells h' = cells h.
Proof.
  intros Ha (L & _ & Hpos & HL & _) Hold.
  pose proof (content_take _ _ Hpos) as Hcontent.
  apply nul_pos_buffer in Hpos as [Hpos _]. unfold sstring.capacity in HL.
  unfold sstring.shl, ostream_insert_cstr, sstring.c_str, sstring.s, bind.
  rewrite (strlen_first_nul _ _ _ Hpos).
  unfold allocated in Ha. rewrite load_n_spec by (simpl; lia).
  unfold sink_append, ret. simpl. rewrite Hold.
  eexists. split; [reflexivity|]. simpl. split; [|done].
  rewrite Hcontent. unfold buffer, bytes_at, sstring.s.
  rewrite take_take. by replace (Nat.min L (S N)) with L by lia.
Qed.

Lemma shl_writes_content_witness :
  allocated 16 demo_big demo /\
  invariant 16 demo_big demo /\
  sinks demo !! 0 = Some [] /\
  exists h',
    sstring.shl 0 demo_big demo = Some (0, h') /\
    sinks h' = <[0 := [] ++ content (buffer 16 demo_big demo)]> (sinks demo) /\
    cells h' = cells demo.
Proof.
  assert (H1 : allocated 16 demo_big demo) by (vm_compute; lia).
  assert (H2 : invariant 16 demo_big demo).
  { exists 12. split; [eexists; vm_compute; eauto|].
    split; [reflexivity|]. split; [vm_compute; lia|reflexivity]. }
  assert (H3 : sinks demo !! 0 = Some []) by reflexivity.
  exact (conj H1 (conj H2 (conj H3
    (shl_writes_content 16 0 demo_big demo [] H1 H2 H3)))).
Defined.

(** ** The length after a copy between [sstring]s *)

Lemma length_is_unique this h L1 L2 :
  length_is this h L1 -> length_is this h L2 -> L1 = L2.
Proof. intros (h1 & H1 & _) (h2 & H2 & _). congruence. Qed.

(** C9.  For all capacities [N] and [M], after an [sstring<M>] of length
    [L] is assigned to an [sstring<N>], the destination's [length()] is
    [min N L]: the copy runs over the [min N M] first bytes of the source,
    the source's own terminator among them when [L < min N M]. *)
Theorem assign_sstring_length N M this rhs h L :
  allocated N this h ->
  allocated M rhs h ->
  invariant M rhs h ->
  length_is rhs h L ->
  rhs = this \/ rhs + M < this \/ this + N < rhs ->
  exists h',
    sstring.assign_sstring N M this rhs h = Some (this, h') /\
    length_is this h' (Nat.min N L).
Proof.
  intros Ha Hr (L' & HL' & Hpos & HLM & _) HL Hsep.
  rewrite (length_is_unique _ _ _ _ HL HL') in *. clear HL L. rename L' into L.
  unfold sstring.capacity in HLM.
  apply nul_pos_buffer in Hpos as [Hpos _].
  apply nul_pos_drop_Some in Hpos as [Hend Hbefore].
  destruct (assign_spec N this (OfSstring M rhs) h Hr Ha)
    as (h' & Hrun & _ & _ & _ & Hnul & _ & Hcp).
  simpl in *. unfold sstring.c_str, sstring.s in *.
  set (n := Nat.min M N) in *.
  assert (Hsafe : forward_safe rhs n this).
  { unfold forward_safe. subst n. lia. }
  specialize (Hcp Hsafe).
  exists h'. split; [done|]. apply length_is_nul_pos, nul_pos_drop_Some.
  split.
  - destruct (decide (Nat.min N L = n)) as [->|Hne]; [done|].
    assert (Nat.min N L = L) as -> by (subst n; lia).
    rewrite Hcp by (subst n; lia). done.
  - intros i c Hi Hc. rewrite Hcp in Hc by (subst n; lia).
    apply (Hbefore i); [lia|done].
Qed.

Lemma assign_sstring_length_witness :
  allocated 8 demo_small demo /\
  allocated 16 demo_big demo /\
  invariant 16 demo_big demo /\
  length_is demo_big demo 12 /\
  (demo_big = demo_small \/ demo_big + 16 < demo_small \/ demo_small + 8 < demo_big) /\
  exists h',
    sstring.assign_sstring 8 16 demo_small demo_big demo = Some (demo_small, h') /\
    length_is demo_small h' (Nat.min 8 12).
Proof.
  assert (H1 : allocated 8 demo_small demo) by (vm_compute; lia).
  assert (H2 : allocated 16 demo_big demo) by (vm_compute; lia).
  assert (H4 : length_is demo_big demo 12) by (eexists; vm_compute; eauto).
  assert (H3 : invariant 16 demo_big demo).
  { exists 12. split; [exact H4|].
    split; [reflexivity|]. split; [vm_compute; lia|reflexivity]. }
  assert (H5 : demo_big = demo_small \/ demo_big + 16 < demo_small
               \/ demo_small + 8 < demo_big) by (vm_compute; lia).
  exact (conj H1 (conj H2 (conj H3 (conj H4 (conj H5
    (assign_sstring_length 8 16 demo_small demo_big demo 12 H1 H2 H3 H4 H5)))))).
Defined.

(** ** What an assignment leaves alone *)

(** C10.  Every assignment writes only offsets 0 to [min count N] of the
    array [s], where [count] is the count its overload hands to the
    truncating copy; every byte of the array at a greater index keeps the
    value it had, and so does the memory outside the array. *)
Theorem assign_frame N this src h :
  allocated N this h ->
  readable h src ->
  exists h' ev,
    assign N this src h = Some (this, h') /\
    log h' = log h ++ ev /\
    within (source_ptr src) (source_extent h src)
           (sstring.s this) (S (Nat.min (source_count h src) N)) ev /\
    (forall i, Nat.min (source_count h src) N < i ->
       buffer N this h' !! i = buffer N this h !! i) /\
    (forall a, a < sstring.s this \/ sstring.s this + N < a ->
       cells h' !! a = cells h !! a).
Proof.
  intros Ha Hr.
  destruct (assign_spec N this src h Hr Ha)
    as (h' & Hrun & Hlen & _ & Hlog & _ & Hfr & _).
  pose proof (source_count_extent h src) as Hce.
  set (n := Nat.min (source_count h src) N) in *.
  unfold sstring.s.
  exists h', (measure_log h src ++ copy_log (source_ptr src) n this
              ++ [Wr (this + n)]).
  split; [done|]. split; [done|]. split; [|split].
  - apply Forall_app. split; [apply measure_log_within|].
    apply Forall_app. split.
    + eapply within_mono; [apply copy_log_within|subst n; lia..].
    + repeat constructor; unfold in_range; lia.
  - intros i Hi. unfold buffer, sstring.s.
    destruct (decide (i < S N)) as [HiN|HiN].
    + rewrite !bytes_at_lookup by done. apply Hfr. lia.
    + unfold allocated in Ha.
      rewrite !lookup_ge_None_2; [done|rewrite bytes_at_length; lia..].
  - intros a Hfar. apply Hfr. subst n. lia.
Qed.

Lemma assign_frame_witness :
  allocated 16 demo_big demo /\
  readable demo (OfArray 13 demo_msg) /\
  exists h' ev,
    assign 16 demo_big (OfArray 13 demo_msg) demo = Some (demo_big, h') /\
    log h' = log demo ++ ev /\
    within (source_ptr (OfArray 13 demo_msg)) (source_extent demo (OfArray 13 demo_msg))
           (sstring.s demo_big) (S (Nat.min (source_count demo (OfArray 13 demo_msg)) 16)) ev /\
    (forall i, Nat.min (source_count demo (OfArray 13 demo_msg)) 16 < i ->
       buffer 16 demo_big h' !! i = buffer 16 demo_big demo !! i) /\
    (forall a, a < sstring.s demo_big \/ sstring.s demo_big + 16 < a ->
       cells h' !! a = cells demo !! a).
Proof.
  assert (H1 : allocated 16 demo_big demo) by (vm_compute; lia).
  assert (H2 : readable demo (OfArray 13 demo_msg)) by (vm_compute; lia).
  exact (conj H1 (conj H2
    (assign_frame 16 demo_big (OfArray 13 demo_msg) demo H1 H2))).
Defined.

(** ** The test cases of the repository, replayed *)

(** [sstring_default_ctor]: length 0 and a terminator first. *)
Example test_default_ctor :
  (sstring.ctor_default demo_small >>
   let* len := sstring.length demo_small in
   let* c := load (sstring.c_str demo_small + 0) in
   ret (sstring.capacity 8, len, c)) demo
  = Some ((8, 0, NUL),
          Machine ((MSG ++ [NUL]) ++ (NUL :: repeat "x" 8)
                   ++ (MSG ++ [NUL] ++ repeat "y" 4))
                  [[]] [Wr 13; Rd 13; Rd 13]).
Proof. reflexivity. Qed.

(** [sstring_copy_ctor_char_m_exceed]: ["hello world!"] into an
    [sstring<8>] gives ["hello wo"]. *)
Example test_copy_ctor_char_m_exceed :
  fst <$> (sstring.ctor_array 8 13 demo_small demo_msg >>
           let* len := sstring.length demo_small in
           let* bs := load_n (sstring.c_str demo_small) 9 in
           ret (len, bs)) demo
  = Some (8, ["h"; "e"; "l"; "l"; "o"; " "; "w"; "o"; NUL]).
Proof. reflexivity. Qed.

(** [sstring_assign_char_ptr] and [sstring_assign_string], on the
    [sstring<16>]: length 12 and a terminator at offset 12. *)
Example test_assign_char_ptr :
  fst <$> (sstring.ctor_default demo_big >>
           sstring.assign_cstr 16 demo_big demo_msg >>
           let* len := sstring.length demo_big in
           let* c := load (sstring.c_str demo_big + len) in
           ret (len, c)) demo
  = Some (12, NUL).
Proof. reflexivity. Qed.

Example test_assign_string :
  fst <$> (sstring.ctor_default demo_big >>
           sstring.assign_string 16 demo_big (StdString demo_msg 12) >>
           let* len := sstring.length demo_big in
           let* c := load (sstring.c_str demo_big + len) in
           ret (len, c)) demo
  = Some (12, NUL).
Proof. reflexivity. Qed.

(** [sstring_output_stream]: the stream receives ["hello world!"]. *)
Example test_output_stream :
  (fun r => (fst r, sinks (snd r))) <$>
    (sstring.ctor_array 16 13 demo_big demo_msg >> sstring.shl 0 demo_big) demo
  = Some (0, [MSG]).
Proof. reflexivity. Qed.

(** The bound of a copy between [sstring]s is the declared capacity: the
    [sstring<8>] copied here holds the empty string followed by seven bytes
    that were never written, and all eight bytes are read and copied. *)
Example copy_over_declared_capacity :
  (fun r => (bytes_at (snd r) demo_big 9, log (snd r))) <$>
    (sstring.ctor_default demo_small >>
     sstring.assign_sstring 16 8 demo_big demo_small) demo
  = Some (NUL :: repeat "x" 7 ++ [NUL],
          Wr 13 :: copy_log 13 8 22 ++ [Wr 30]).
Proof. reflexivity. Qed.

(** ** Logical content *)

Lemma content_app_nul bs rest : content (bs ++ NUL :: rest) = content bs.
Proof.
  induction bs as [|c bs IH]; simpl; [done|].
  destruct (Byte.eqb c NUL); [done|]. by rewrite IH.
Qed.

Lemma nul_pos_app_nul bs rest :
  nul_pos (bs ++ NUL :: rest) = Some (length (content bs)).
Proof.
  induction bs as [|c bs IH]; simpl; [done|].
  destruct (Byte.eqb c NUL); [done|]. by rewrite IH.
Qed.

Lemma content_take_comm bs : forall n, content (take n bs) = take n (content bs).
Proof.
  induction bs as [|c bs IH]; intros [|n]; simpl; try done.
  destruct (Byte.eqb c NUL); [done|]. simpl. by rewrite IH.
Qed.

Lemma content_length_le bs : length (content bs) <= length bs.
Proof.
  induction bs as [|c bs IH]; simpl; [done|].
  destruct (Byte.eqb c NUL); simpl; lia.
Qed.

Lemma content_no_nul bs : no_nul bs = true -> content bs = bs.
Proof.
  unfold no_nul. induction bs as [|c bs IH]; simpl; [done|].
  destruct (Byte.eqb c NUL); simpl; [done|]. intros H. by rewrite IH.
Qed.

Lemma content_full bs : length (content bs) = length bs -> no_nul bs = true.
Proof.
  unfold no_nul. induction bs as [|c bs IH]; simpl; [done|].
  destruct (Byte.eqb c NUL); simpl; [done|]. intros [= H]. by apply IH.
Qed.

Lemma nul_pos_None bs : nul_pos bs = None <-> no_nul bs = true.
Proof.
  unfold no_nul. induction bs as [|c bs IH]; simpl; [done|].
  destruct (Byte.eqb c NUL); simpl; [done|].
  rewrite <- IH. by destruct (nul_pos bs).
Qed.

(** ** [std::strlen] without a terminator *)

Lemma strlen_scan_none fuel : forall str n h,
  nul_pos (drop (str + n) (cells h)) = None ->
  strlen_scan fuel str n h = None.
Proof.
  induction fuel as [|f IH]; intros str n h Hnone; [done|].
  simpl. unfold bind, load.
  destruct (cells h !! (str + n)) as [c|] eqn:Hc; [|done].
  rewrite (drop_S _ _ _ Hc) in Hnone. simpl in Hnone.
  destruct (Byte.eqb c NUL); [done|].
  apply IH. simpl. replace (str + S n) with (S (str + n)) by lia.
  by destruct (nul_pos (drop (S (str + n)) (cells h))).
Qed.

Lemma strlen_no_nul str h :
  nul_pos (drop str (cells h)) = None -> strlen str h = None.
Proof.
  intros Hnone. unfold strlen. apply strlen_scan_none.
  by rewrite Nat.add_0_r.
Qed.

(** ** The array after an assignment *)

(** After an assignment whose copy is forward safe, the array is the
    [min count N] bytes of the source, the terminator, and whatever the
    array held after them. *)
Lemma assign_buffer N this src h :
  allocated N this h ->
  readable h src ->
  forward_safe (source_ptr src) (Nat.min (source_count h src) N) this ->
  exists h',
    assign N this src h = Some (this, h') /\
    copied h h' (measure_log h src) (source_ptr src)
      (Nat.min (source_count h src) N) this /\
    buffer N this h' =
      bytes_at h (source_ptr src) (Nat.min (source_count h src) N)
      ++ NUL :: drop (S (Nat.min (source_count h src) N)) (buffer N this h').
Proof.
  intros Ha Hr Hsafe.
  pose proof (readable_in_memory h src N Hr) as Hmem.
  destruct (assign_spec N this src h Hr Ha) as (h' & Hrun & Hc).
  exists h'. split; [done|]. split; [done|].
  destruct Hc as (Hlen & _ & _ & Hnul & _ & Hcp). specialize (Hcp Hsafe).
  set (n := Nat.min (source_count h src) N) in *.
  assert (HnN : n <= N) by (subst n; lia).
  unfold allocated in Ha.
  assert (Hbn : buffer N this h' !! n = Some NUL).
  { unfold buffer, sstring.s. rewrite bytes_at_lookup by lia. done. }
  rewrite <- (take_drop n (buffer N this h')) at 1.
  rewrite (drop_S _ _ _ Hbn). f_equal.
  unfold buffer, bytes_at, sstring.s. rewrite take_take.
  replace (Nat.min n (S N)) with n by lia.
  apply (bytes_at_ext h' h this (source_ptr src) n); [lia..|done].
Qed.

Lemma terminated_length N this h bs rest :
  buffer N this h = bs ++ NUL :: rest ->
  content (buffer N this h) = content bs /\
  length_is this h (length (content bs)).
Proof.
  intros Hb. split; [by rewrite Hb, content_app_nul|].
  apply length_is_nul_pos.
  assert (Hpos : nul_pos (buffer N this h) = Some (length (content bs))).
  { by rewrite Hb, nul_pos_app_nul. }
  by apply nul_pos_buffer in Hpos as [? _].
Qed.

(** ** The default constructor and [length()] *)

(** X1.  The default constructor makes the string empty: [length()] is 0,
    the logical content is empty and [c_str()[0]] is the terminator.  It
    stores that one byte and nothing else, so the other [N] bytes of the
    array stay as the storage had them. *)
Theorem default_ctor_empty N this h :
  allocated N this h ->
  exists h',
    sstring.ctor_default this h = Some (tt, h') /\
    length_is this h' 0 /\
    content (buffer N this h') = [] /\
    cells h' !! (sstring.c_str this) = Some NUL /\
    log h' = log h ++ [Wr (sstring.s this)] /\
    (forall a, a <> sstring.s this -> cells h' !! a = cells h !! a).
Proof.
  intros Ha. unfold allocated in Ha.
  unfold sstring.ctor_default, sstring.c_str, sstring.s.
  rewrite Nat.add_0_r, store_ok by lia. eexists. split; [reflexivity|]. simpl.
  assert (Hnul : <[this:=NUL]> (cells h) !! this = Some NUL).
  { apply list_lookup_insert_eq. lia. }
  set (h' := Machine _ _ _).
  assert (Hb : buffer N this h' = [] ++ NUL :: drop 1 (buffer N this h')).
  { change (drop 0 (buffer N this h') = NUL :: drop 1 (buffer N this h')).
    apply drop_S. unfold buffer, sstring.s.
    rewrite bytes_at_lookup by lia. by rewrite Nat.add_0_r. }
  destruct (terminated_length N this h' [] _ Hb) as [Hcontent Hlen].
  split; [done|]. split; [done|]. split; [done|]. split; [done|].
  intros a Hne. by apply list_lookup_insert_ne.
Qed.

Lemma default_ctor_empty_witness :
  allocated 8 demo_small demo /\
  exists h',
    sstring.ctor_default demo_small demo = Some (tt, h') /\
    length_is demo_small h' 0 /\
    content (buffer 8 demo_small h') = [] /\
    cells h' !! (sstring.c_str demo_small) = Some NUL /\
    log h' = log demo ++ [Wr (sstring.s demo_small)] /\
    (forall a, a <> sstring.s demo_small -> cells h' !! a = cells demo !! a).
Proof.
  assert (H1 : allocated 8 demo_small demo) by (vm_compute; lia).
  exact (conj H1 (default_ctor_empty 8 demo_small demo H1)).
Defined.

(** X2.  On an object whose array holds a terminator, [length()] returns
    the number of bytes of the logical content, which is at most the
    capacity.  It reads the bytes of the array up to and including the
    first terminator, reads nothing outside the array, and writes
    nothing. *)
Theorem length_reads_array N this h L :
  allocated N this h ->
  nul_pos (buffer N this h) = Some L ->
  exists h',
    sstring.length this h = Some (L, h') /\
    L = length (content (buffer N this h)) /\
    L <= sstring.capacity N /\
    cells h' = cells h /\
    sinks h' = sinks h /\
    log h' = log h ++ scan_log (sstring.s this) L /\
    within (sstring.s this) (S N) (sstring.s this) 0 (scan_log (sstring.s this) L).
Proof.
  intros Ha Hpos.
  pose proof (content_take _ _ Hpos) as Hcontent.
  pose proof (nul_pos_lt _ _ Hpos) as Hlt.
  apply nul_pos_buffer in Hpos as [Hpos HL].
  unfold sstring.length, sstring.capacity, sstring.s.
  rewrite (strlen_first_nul _ _ _ Hpos). eexists. split; [reflexivity|]. simpl.
  split; [rewrite Hcontent, length_take; lia|].
  split; [done|]. split; [done|]. split; [done|]. split; [done|].
  eapply within_mono; [apply (scan_log_within this L this 0)|lia..].
Qed.

Lemma length_reads_array_witness :
  allocated 16 demo_big demo /\
  nul_pos (buffer 16 demo_big demo) = Some 12 /\
  exists h',
    sstring.length demo_big demo = Some (12, h') /\
    12 = length (content (buffer 16 demo_big demo)) /\
    12 <= sstring.capacity 16 /\
    cells h' = cells demo /\
    sinks h' = sinks demo /\
    log h' = log demo ++ scan_log (sstring.s demo_big) 12 /\
    within (sstring.s demo_big) (S 16) (sstring.s demo_big) 0
           (scan_log (sstring.s demo_big) 12).
Proof.
  assert (H1 : allocated 16 demo_big demo) by (vm_compute; lia).
  assert (H2 : nul_pos (buffer 16 demo_big demo) = Some 12) by reflexivity.
  exact (conj H1 (conj H2 (length_reads_array 16 demo_big demo 12 H1 H2))).
Defined.

(** X3.  On storage whose array holds no terminator (an object that was
    never constructed), [length()] does not stay inside the array: the scan
    either runs off the memory, or it returns a value greater than the
    capacity after reading more than the [N + 1] bytes of the array. *)
Theorem length_unterminated N this h :
  allocated N this h ->
  no_nul (buffer N this h) = true ->
  sstring.length this h = None \/
  exists L h',
    sstring.length this h = Some (L, h') /\
    sstring.capacity N < L /\
    log h' = log h ++ scan_log (sstring.s this) L.
Proof.
  intros Ha Hnn. unfold sstring.length, sstring.capacity, sstring.s.
  destruct (nul_pos (drop this (cells h))) as [L|] eqn:Hpos.
  - right. exists L. rewrite (strlen_first_nul _ _ _ Hpos).
    eexists. split; [reflexivity|]. split; [|done].
    destruct (decide (N < L)) as [|Hle]; [done|].
    assert (Hb : nul_pos (buffer N this h) = Some L).
    { apply nul_pos_buffer. split; [done|lia]. }
    apply nul_pos_None in Hnn. congruence.
  - left. by apply strlen_no_nul.
Qed.

Lemma length_unterminated_witness :
  allocated 8 demo_small demo /\
  no_nul (buffer 8 demo_small demo) = true /\
  (sstring.length demo_small demo = None \/
   exists L h',
     sstring.length demo_small demo = Some (L, h') /\
     sstring.capacity 8 < L /\
     log h' = log demo ++ scan_log (sstring.s demo_small) L).
Proof.
  assert (H1 : allocated 8 demo_small demo) by (vm_compute; lia).
  assert (H2 : no_nul (buffer 8 demo_small demo) = true) by reflexivity.
  exact (conj H1 (conj H2 (length_unterminated 8 demo_small demo H1 H2))).
Defined.

(** ** What an assignment stores *)

Lemma bytes_at_take h p n k :
  take k (bytes_at h p n) = bytes_at h p (Nat.min k n).
Proof. unfold bytes_at. apply take_take. Qed.

(** X4.  After an assignment from a source that shares no byte with the
    array, the logical content of the string is the first [N] bytes of the
    logical content of the [count] bytes the overload passes on, and
    [length()] is the length of that: the string stops at the first
    terminator among the copied bytes, or at the capacity. *)
Theorem assign_content N this src h :
  allocated N this h ->
  readable h src ->
  apart N this h src ->
  exists h',
    assign N this src h = Some (this, h') /\
    content (buffer N this h') =
      take N (content (bytes_at h (source_ptr src) (source_count h src))) /\
    length_is this h'
      (length (take N (content (bytes_at h (source_ptr src) (source_count h src))))).
Proof.
  intros Ha Hr Hap.
  destruct (assign_buffer N this src h Ha Hr) as (h' & Hrun & _ & Hb).
  { eapply apart_forward_safe; [done|lia]. }
  destruct (terminated_length _ _ _ _ _ Hb) as [Hcontent Hlen].
  rewrite (Nat.min_comm _ N), <- bytes_at_take, content_take_comm in Hcontent, Hlen.
  by exists h'.
Qed.

Lemma assign_content_witness :
  allocated 8 demo_small demo /\
  readable demo (OfString (StdString demo_msg 12)) /\
  apart 8 demo_small demo (OfString (StdString demo_msg 12)) /\
  exists h',
    assign 8 demo_small (OfString (StdString demo_msg 12)) demo
      = Some (demo_small, h') /\
    content (buffer 8 demo_small h') =
      take 8 (content (bytes_at demo (source_ptr (OfString (StdString demo_msg 12)))
                         (source_count demo (OfString (StdString demo_msg 12))))) /\
    length_is demo_small h'
      (length (take 8 (content
         (bytes_at demo (source_ptr (OfString (StdString demo_msg 12)))
            (source_count demo (OfString (StdString demo_msg 12))))))).
Proof.
  assert (H1 : allocated 8 demo_small demo) by (vm_compute; lia).
  assert (H2 : readable demo (OfString (StdString demo_msg 12)))
    by (vm_compute; lia).
  assert (H3 : apart 8 demo_small demo (OfString (StdString demo_msg 12)))
    by (vm_compute; lia).
  exact (conj H1 (conj H2 (conj H3
    (assign_content 8 demo_small (OfString (StdString demo_msg 12)) demo
       H1 H2 H3)))).
Defined.

(** X5.  After such an assignment [length()] is at most [min count N], and
    it is equal to [min count N] exactly when none of the copied bytes is a
    terminator.  So a [std::string], a char array or an [sstring] with a
    terminator among its first [min count N] bytes gives a shorter string
    than the count it was copied with. *)
Theorem assign_length_bound N this src h :
  allocated N this h ->
  readable h src ->
  apart N this h src ->
  exists h' L,
    assign N this src h = Some (this, h') /\
    length_is this h' L /\
    L <= Nat.min (source_count h src) N /\
    (L = Nat.min (source_count h src) N <->
     no_nul (bytes_at h (source_ptr src) (Nat.min (source_count h src) N)) = true).
Proof.
  intros Ha Hr Hap.
  pose proof (readable_in_memory h src N Hr) as Hmem.
  destruct (assign_buffer N this src h Ha Hr) as (h' & Hrun & _ & Hb).
  { eapply apart_forward_safe; [done|lia]. }
  destruct (terminated_length _ _ _ _ _ Hb) as [_ Hlen].
  set (B := bytes_at h (source_ptr src) (Nat.min (source_count h src) N)) in *.
  assert (HB : length B = Nat.min (source_count h src) N).
  { subst B. by apply bytes_at_length. }
  exists h', (length (content B)). split; [done|]. split; [done|].
  pose proof (content_length_le B). split; [lia|]. rewrite <- HB. split.
  - apply content_full.
  - intros Hnn. by rewrite content_no_nul.
Qed.

Lemma assign_length_bound_witness :
  allocated 16 demo_big demo /\
  readable demo (OfArray 13 demo_msg) /\
  apart 16 demo_big demo (OfArray 13 demo_msg) /\
  exists h' L,
    assign 16 demo_big (OfArray 13 demo_msg) demo = Some (demo_big, h') /\
    length_is demo_big h' L /\
    L <= Nat.min (source_count demo (OfArray 13 demo_msg)) 16 /\
    (L = Nat.min (source_count demo (OfArray 13 demo_msg)) 16 <->
     no_nul (bytes_at demo (source_ptr (OfArray 13 demo_msg))
               (Nat.min (source_count demo (OfArray 13 demo_msg)) 16)) = true).
Proof.
  assert (H1 : allocated 16 demo_big demo) by (vm_compute; lia).
  assert (H2 : readable demo (OfArray 13 demo_msg)) by (vm_compute; lia).
  assert (H3 : apart 16 demo_big demo (OfArray 13 demo_msg)) by (vm_compute; lia).
  exact (conj H1 (conj H2 (conj H3
    (assign_length_bound 16 demo_big (OfArray 13 demo_msg) demo H1 H2 H3)))).
Defined.

(** X6.  An empty source, or a capacity of zero, gives the empty string:
    when [min count N] is 0 the assignment reads no source byte, stores the
    terminator at [s[0]] and changes no other byte. *)
Theorem assign_empty N this src h :
  allocated N this h ->
  readable h src ->
  Nat.min (source_count h src) N = 0 ->
  exists h',
    assign N this src h = Some (this, h') /\
    length_is this h' 0 /\
    content (buffer N this h') = [] /\
    log h' = log h ++ measure_log h src ++ [Wr (sstring.s this)] /\
    (forall a, a <> sstring.s this -> cells h' !! a = cells h !! a).
Proof.
  intros Ha Hr Hzero.
  destruct (assign_buffer N this src h Ha Hr) as (h' & Hrun & Hc & Hb).
  { rewrite Hzero. unfold forward_safe. lia. }
  destruct Hc as (_ & _ & Hlog & _ & Hfr & _).
  rewrite Hzero in *. unfold bytes_at in Hb. rewrite take_0 in Hb.
  destruct (terminated_length _ _ _ _ _ Hb) as [Hcontent Hlen].
  exists h'. unfold sstring.s. rewrite Nat.add_0_r in Hlog.
  split; [done|]. split; [done|]. split; [done|]. split; [done|].
  intros a Hne. apply Hfr. lia.
Qed.

Lemma assign_empty_witness :
  allocated 8 demo_small demo /\
  readable demo (OfCstr (demo_msg + 12)) /\
  Nat.min (source_count demo (OfCstr (demo_msg + 12))) 8 = 0 /\
  exists h',
    assign 8 demo_small (OfCstr (demo_msg + 12)) demo = Some (demo_small, h') /\
    length_is demo_small h' 0 /\
    content (buffer 8 demo_small h') = [] /\
    log h' = log demo ++ measure_log demo (OfCstr (demo_msg + 12))
                      ++ [Wr (sstring.s demo_small)] /\
    (forall a, a <> sstring.s demo_small -> cells h' !! a = cells demo !! a).
Proof.
  assert (H1 : allocated 8 demo_small demo) by (vm_compute; lia).
  assert (H2 : readable demo (OfCstr (demo_msg + 12))) by (vm_compute; eauto).
  assert (H3 : Nat.min (source_count demo (OfCstr (demo_msg + 12))) 8 = 0)
    by reflexivity.
  exact (conj H1 (conj H2 (conj H3
    (assign_empty 8 demo_small (OfCstr (demo_msg + 12)) demo H1 H2 H3)))).
Defined.

(** ** Assignments in sequence *)

(** X7.  The last assignment wins: after assigning one source and then
    another, the logical content and the length are those of assigning the
    second source alone, provided the second source shares no byte with the
    array.  Only bytes of the array after the second terminator can still
    show the first assignment. *)
Theorem last_assignment_wins N this src1 src2 h :
  allocated N this h ->
  readable h src1 ->
  readable h src2 ->
  apart N this h src2 ->
  exists h1 h2 h2',
    assign N this src1 h = Some (this, h1) /\
    assign N this src2 h1 = Some (this, h2) /\
    assign N this src2 h = Some (this, h2') /\
    content (buffer N this h2) = content (buffer N this h2') /\
    (exists L, length_is this h2' L /\ length_is this h2 L) /\
    bytes_at h2 this (S (Nat.min (source_count h src2) N))
      = bytes_at h2' this (S (Nat.min (source_count h src2) N)).
Proof.
  intros Ha Hr1 Hr2 Hap.
  destruct (assign_spec N this src1 h Hr1 Ha)
    as (h1 & Hrun1 & Hlen1 & _ & _ & _ & Hfr1 & _).
  assert (Ha1 : allocated N this h1) by (unfold allocated in *; lia).
  destruct (apart_stable N this src2 h h1 Hap Hr2 Hlen1) as (Hr21 & Hcnt & Hsrc).
  { intros a Hfar. apply Hfr1. lia. }
  destruct (assign_spec N this src2 h1 Hr21 Ha1) as (h2 & Hrun2 & Hlen2 & _).
  destruct (assign_spec N this src2 h Hr2 Ha)
    as (h2' & Hrun2' & Hlen2' & _ & _ & Hnul2' & _).
  pose proof (source_count_extent h src2) as Hce.
  set (n := Nat.min (source_count h src2) N) in *.
  assert (Hwritten : forall i, i <= n ->
            cells h2 !! (this + i) = cells h2' !! (this + i)).
  { intros i Hi. apply (assign_agree N this src2 h h1); try done.
    - eapply apart_forward_safe; [done|lia].
    - intros j Hj. apply Hsrc. lia.
    - left. unfold in_range. lia. }
  unfold allocated in Ha.
  destruct (written_agree N this h2' h2 n) as [Hcontent HL];
    [unfold allocated; lia|lia|subst n; lia|done..|].
  exists h1, h2, h2'. split; [done|]. split; [done|]. split; [done|].
  split; [done|]. split; [done|].
  apply bytes_at_ext; [subst n; lia..|]. intros i Hi. apply Hwritten. lia.
Qed.

Lemma last_assignment_wins_witness :
  allocated 16 demo_big demo /\
  readable demo (OfArray 13 demo_msg) /\
  readable demo (OfCstr (demo_msg + 6)) /\
  apart 16 demo_big demo (OfCstr (demo_msg + 6)) /\
  exists h1 h2 h2',
    assign 16 demo_big (OfArray 13 demo_msg) demo = Some (demo_big, h1) /\
    assign 16 demo_big (OfCstr (demo_msg + 6)) h1 = Some (demo_big, h2) /\
    assign 16 demo_big (OfCstr (demo_msg + 6)) demo = Some (demo_big, h2') /\
    content (buffer 16 demo_big h2) = content (buffer 16 demo_big h2') /\
    (exists L, length_is demo_big h2' L /\ length_is demo_big h2 L) /\
    bytes_at h2 demo_big (S (Nat.min (source_count demo (OfCstr (demo_msg + 6))) 16))
      = bytes_at h2' demo_big
          (S (Nat.min (source_count demo (OfCstr (demo_msg + 6))) 16)).
Proof.
  assert (H1 : allocated 16 demo_big demo) by (vm_compute; lia).
  assert (H2 : readable demo (OfArray 13 demo_msg)) by (vm_compute; lia).
  assert (H3 : readable demo (OfCstr (demo_msg + 6))) by (vm_compute; eauto).
  assert (H4 : apart 16 demo_big demo (OfCstr (demo_msg + 6)))
    by (vm_compute; lia).
  exact (conj H1 (conj H2 (conj H3 (conj H4
    (last_assignment_wins 16 demo_big (OfArray 13 demo_msg) (OfCstr (demo_msg + 6))
       demo H1 H2 H3 H4))))).
Defined.

(** ** Copies through a chain of capacities *)

Lemma take_min_length {A} (w : list A) x K :
  length w <= K -> take (Nat.min x K) w = take x w.
Proof.
  intros Hw. destruct (decide (x <= K)) as [Hx|Hx].
  - by replace (Nat.min x K) with x by lia.
  - replace (Nat.min x K) with K by lia. by rewrite !take_ge by lia.
Qed.

(** A copy between [sstring]s carries over the logical content of the
    first [min M N] bytes of the source array. *)
Lemma assign_sstring_content N M this rhs h :
  allocated N this h ->
  allocated M rhs h ->
  rhs + M < this \/ this + N < rhs ->
  exists h',
    sstring.assign_sstring N M this rhs h = Some (this, h') /\
    length (cells h') = length (cells h) /\
    content (buffer N this h') = take (Nat.min M N) (content (buffer M rhs h)).
Proof.
  intros Ha Hr Hsep.
  destruct (assign_buffer N this (OfSstring M rhs) h Ha Hr)
    as (h' & Hrun & Hc & Hb).
  { simpl. unfold forward_safe, sstring.c_str, sstring.s. lia. }
  destruct (terminated_length _ _ _ _ _ Hb) as [Hcontent _].
  destruct Hc as (Hlen & _). simpl in *.
  exists h'. split; [done|]. split; [done|].
  rewrite Hcontent, <- content_take_comm. f_equal.
  unfold buffer. rewrite bytes_at_take. f_equal. lia.
Qed.

(** X8.  Truncations compose.  When an [sstring<K>] is copied into an
    [sstring<M>] and that one into an [sstring<N>], the last string holds
    the first [min M N] bytes of the logical content of the first: the
    smallest capacity on the way decides what is kept. *)
Theorem copy_chain_truncates K M N a b c h L :
  allocated K a h ->
  allocated M b h ->
  allocated N c h ->
  nul_pos (buffer K a h) = Some L ->
  a + K < b \/ b + M < a ->
  b + M < c \/ c + N < b ->
  exists h1 h2,
    sstring.assign_sstring M K b a h = Some (b, h1) /\
    sstring.assign_sstring N M c b h1 = Some (c, h2) /\
    content (buffer N c h2) = take (Nat.min M N) (content (buffer K a h)).
Proof.
  intros Ha Hb Hc Hpos Hab Hbc.
  destruct (assign_sstring_content M K b a h Hb Ha) as (h1 & Hrun1 & Hlen1 & Hc1);
    [lia|].
  destruct (assign_sstring_content N M c b h1) as (h2 & Hrun2 & _ & Hc2);
    [unfold allocated in *; lia..|].
  assert (Hw : length (content (buffer K a h)) = L).
  { rewrite (content_take _ _ Hpos), length_take.
    apply nul_pos_lt in Hpos. lia. }
  assert (HLK : L <= K).
  { apply nul_pos_buffer in Hpos as [_ ?]. done. }
  exists h1, h2. split; [done|]. split; [done|].
  rewrite Hc2, Hc1, take_take.
  replace (Nat.min (Nat.min M N) (Nat.min K M))
    with (Nat.min (Nat.min M N) K) by lia.
  apply take_min_length. lia.
Qed.

Lemma copy_chain_truncates_witness :
  allocated 4 trio_four trio /\
  allocated 2 trio_two trio /\
  allocated 3 trio_three trio /\
  nul_pos (buffer 4 trio_four trio) = Some 3 /\
  (trio_four + 4 < trio_two \/ trio_two + 2 < trio_four) /\
  (trio_two + 2 < trio_three \/ trio_three + 3 < trio_two) /\
  exists h1 h2,
    sstring.assign_sstring 2 4 trio_two trio_four trio = Some (trio_two, h1) /\
    sstring.assign_sstring 3 2 trio_three trio_two h1 = Some (trio_three, h2) /\
    content (buffer 3 trio_three h2)
      = take (Nat.min 2 3) (content (buffer 4 trio_four trio)).
Proof.
  assert (H1 : allocated 4 trio_four trio) by (vm_compute; lia).
  assert (H2 : allocated 2 trio_two trio) by (vm_compute; lia).
  assert (H3 : allocated 3 trio_three trio) by (vm_compute; lia).
  assert (H4 : nul_pos (buffer 4 trio_four trio) = Some 3) by reflexivity.
  assert (H5 : trio_four + 4 < trio_two \/ trio_two + 2 < trio_four)
    by (vm_compute; lia).
  assert (H6 : trio_two + 2 < trio_three \/ trio_three + 3 < trio_two)
    by (vm_compute; lia).
  exact (conj H1 (conj H2 (conj H3 (conj H4 (conj H5 (conj H6
    (copy_chain_truncates 4 2 3 trio_four trio_two trio_three trio 3
       H1 H2 H3 H4 H5 H6))))))).
Defined.

(** X9.  A round trip through capacities that are large enough loses
    nothing.  When an [sstring<K>] of length [L] is copied into an
    [sstring<M>] and that one into an [sstring<N>], with [L] at most [M] and
    [N], the last string has the logical content and the length of the
    first. *)
Theorem copy_round_trip K M N a b c h L :
  allocated K a h ->
  allocated M b h ->
  allocated N c h ->
  nul_pos (buffer K a h) = Some L ->
  a + K < b \/ b + M < a ->
  b + M < c \/ c + N < b ->
  L <= M ->
  L <= N ->
  exists h1 h2,
    sstring.assign_sstring M K b a h = Some (b, h1) /\
    sstring.assign_sstring N M c b h1 = Some (c, h2) /\
    content (buffer M b h1) = content (buffer K a h) /\
    content (buffer N c h2) = content (buffer K a h) /\
    length_is c h2 L.
Proof.
  intros Ha Hb Hc Hpos Hab Hbc HLM HLN.
  destruct (assign_sstring_content M K b a h Hb Ha) as (h1 & Hrun1 & Hlen1 & Hc1);
    [lia|].
  assert (Hc1' : allocated N c h1) by (unfold allocated in *; lia).
  assert (Hb1 : allocated M b h1) by (unfold allocated in *; lia).
  destruct (assign_buffer N c (OfSstring M b) h1 Hc1' Hb1)
    as (h2 & Hrun2 & _ & Hbuf).
  { simpl. unfold forward_safe, sstring.c_str, sstring.s. lia. }
  destruct (terminated_length _ _ _ _ _ Hbuf) as [Hc2 Hlen2].
  simpl in Hc2, Hlen2.
  assert (Hw : length (content (buffer K a h)) = L).
  { rewrite (content_take _ _ Hpos), length_take.
    apply nul_pos_lt in Hpos. lia. }
  assert (HLK : L <= K).
  { apply nul_pos_buffer in Hpos as [_ ?]. done. }
  assert (Hfirst : content (buffer M b h1) = content (buffer K a h)).
  { rewrite Hc1. apply take_ge. lia. }
  assert (Hsrc : content (bytes_at h1 (sstring.c_str b) (Nat.min M N))
                 = content (buffer K a h)).
  { replace (bytes_at h1 (sstring.c_str b) (Nat.min M N))
      with (take (Nat.min M N) (buffer M b h1)).
    - rewrite content_take_comm, Hfirst. apply take_ge. lia.
    - unfold buffer, sstring.c_str. rewrite bytes_at_take. f_equal. lia. }
  rewrite Hsrc in Hc2, Hlen2. rewrite Hw in Hlen2.
  by exists h1, h2.
Qed.

Lemma copy_round_trip_witness :
  allocated 2 trio_two trio /\
  allocated 4 trio_four trio /\
  allocated 2 trio_three trio /\
  nul_pos (buffer 2 trio_two trio) = Some 2 /\
  (trio_two + 2 < trio_four \/ trio_four + 4 < trio_two) /\
  (trio_four + 4 < trio_three \/ trio_three + 2 < trio_four) /\
  2 <= 4 /\
  2 <= 2 /\
  exists h1 h2,
    sstring.assign_sstring 4 2 trio_four trio_two trio = Some (trio_four, h1) /\
    sstring.assign_sstring 2 4 trio_three trio_four h1 = Some (trio_three, h2) /\
    content (buffer 4 trio_four h1) = content (buffer 2 trio_two trio) /\
    content (buffer 2 trio_three h2) = content (buffer 2 trio_two trio) /\
    length_is trio_three h2 2.
Proof.
  assert (H1 : allocated 2 trio_two trio) by (vm_compute; lia).
  assert (H2 : allocated 4 trio_four trio) by (vm_compute; lia).
  assert (H3 : allocated 2 trio_three trio) by (vm_compute; lia).
  assert (H4 : nul_pos (buffer 2 trio_two trio) = Some 2) by reflexivity.
  assert (H5 : trio_two + 2 < trio_four \/ trio_four + 4 < trio_two)
    by (vm_compute; lia).
  assert (H6 : trio_four + 4 < trio_three \/ trio_three + 2 < trio_four)
    by (vm_compute; lia).
  assert (H7 : 2 <= 4) by lia.
  assert (H8 : 2 <= 2) by lia.
  exact (conj H1 (conj H2 (conj H3 (conj H4 (conj H5 (conj H6 (conj H7 (conj H8
    (copy_round_trip 2 4 2 trio_two trio_four trio_three trio 2
       H1 H2 H3 H4 H5 H6 H7 H8))))))))).
Defined.

(** ** Assigning a string from its own array *)

(** [s = s.c_str() + k] for [k] at most the length: what the call returns
    and the array it leaves. *)
Lemma own_suffix N this h L k :
  allocated N this h ->
  nul_pos (buffer N this h) = Some L ->
  k <= L ->
  exists h',
    sstring.assign_cstr N this (sstring.c_str this + k) h = Some (this, h') /\
    copied h h' (scan_log (this + k) (L - k)) (this + k) (L - k) this /\
    no_nul (bytes_at h (this + k) (L - k)) = true /\
    bytes_at h (this + k) (L - k) = drop k (content (buffer N this h)) /\
    buffer N this h' =
      bytes_at h (this + k) (L - k) ++ NUL :: drop (S (L - k)) (buffer N this h').
Proof.
  intros Ha Hbuf Hk. unfold sstring.c_str, sstring.s.
  pose proof (content_take _ _ Hbuf) as Hcontent.
  apply nul_pos_buffer in Hbuf as [Hpos HLN].
  assert (Hposk : nul_pos (drop (this + k) (cells h)) = Some (L - k)).
  { apply nul_pos_drop_Some in Hpos as [Hend Hbefore].
    apply nul_pos_drop_Some. split.
    - by replace (this + k + (L - k)) with (this + L) by lia.
    - intros i c Hi Hc. apply (Hbefore (k + i)); [lia|].
      by replace (this + (k + i)) with (this + k + i) by lia. }
  assert (Hr : readable h (OfCstr (this + k))) by (simpl; by eexists).
  destruct (assign_buffer N this (OfCstr (this + k)) h Ha Hr)
    as (h' & Hrun & Hc & Hb).
  { simpl. unfold forward_safe. lia. }
  simpl in Hrun, Hc, Hb. rewrite Hposk in Hc, Hb. simpl in Hc, Hb.
  replace (Nat.min (L - k) N) with (L - k) in Hc, Hb by lia.
  exists h'. split; [done|]. split; [done|].
  split; [by apply nul_pos_Some in Hposk as [_ ?]|]. split; [|done].
  rewrite Hcontent. unfold buffer, bytes_at, sstring.s.
  rewrite take_take. replace (Nat.min L (S N)) with L by lia.
  by rewrite skipn_firstn_comm, drop_drop.
Qed.

(** X10.  Assigning to a string a pointer into its own array,
    [s = s.c_str() + k] with [k] at most the length, drops the first [k]
    bytes: the logical content becomes the suffix from [k] on and the length
    goes down by [k]. *)
Theorem assign_own_suffix N this h L k :
  allocated N this h ->
  nul_pos (buffer N this h) = Some L ->
  k <= L ->
  exists h',
    sstring.assign_cstr N this (sstring.c_str this + k) h = Some (this, h') /\
    content (buffer N this h') = drop k (content (buffer N this h)) /\
    length_is this h' (L - k).
Proof.
  intros Ha Hbuf Hk.
  destruct (own_suffix N this h L k Ha Hbuf Hk)
    as (h' & Hrun & _ & Hnn & Hdrop & Hb).
  destruct (terminated_length _ _ _ _ _ Hb) as [Hcontent Hlen].
  rewrite (content_no_nul _ Hnn) in Hcontent, Hlen.
  exists h'. split; [done|]. split; [by rewrite Hcontent|].
  replace (L - k) with (length (bytes_at h (this + k) (L - k))); [done|].
  apply bytes_at_length. apply nul_pos_buffer in Hbuf as [Hpos _].
  apply nul_pos_lt in Hpos. rewrite length_drop in Hpos. lia.
Qed.

Lemma assign_own_suffix_witness :
  allocated 16 demo_big demo /\
  nul_pos (buffer 16 demo_big demo) = Some 12 /\
  6 <= 12 /\
  exists h',
    sstring.assign_cstr 16 demo_big (sstring.c_str demo_big + 6) demo
      = Some (demo_big, h') /\
    content (buffer 16 demo_big h') = drop 6 (content (buffer 16 demo_big demo)) /\
    length_is demo_big h' (12 - 6).
Proof.
  assert (H1 : allocated 16 demo_big demo) by (vm_compute; lia).
  assert (H2 : nul_pos (buffer 16 demo_big demo) = Some 12) by reflexivity.
  assert (H3 : 6 <= 12) by lia.
  exact (conj H1 (conj H2 (conj H3
    (assign_own_suffix 16 demo_big demo 12 6 H1 H2 H3)))).
Defined.

(** X11.  Assigning to a string its own [c_str()] changes no byte of the
    memory. *)
Theorem assign_own_c_str N this h :
  allocated N this h ->
  is_Some (nul_pos (buffer N this h)) ->
  exists h',
    sstring.assign_cstr N this (sstring.c_str this) h = Some (this, h') /\
    cells h' = cells h.
Proof.
  intros Ha [L Hbuf].
  destruct (own_suffix N this h L 0 Ha Hbuf) as (h' & Hrun & Hc & _); [lia|].
  unfold sstring.c_str, sstring.s in *.
  rewrite Nat.add_0_r, Nat.sub_0_r in *.
  destruct Hc as (_ & _ & _ & Hnul & Hfr & Hcp).
  exists h'. split; [done|].
  apply nul_pos_buffer in Hbuf as [Hpos _].
  apply nul_pos_drop_Some in Hpos as [Hend _].
  apply list_eq. intros a.
  destruct (decide (a < this \/ this + L < a)) as [Hfar|Hnear]; [by apply Hfr|].
  destruct (decide (a = this + L)) as [->|Hne]; [by rewrite Hnul|].
  replace a with (this + (a - this)) by lia.
  apply Hcp; [unfold forward_safe|]; lia.
Qed.

Lemma assign_own_c_str_witness :
  allocated 16 demo_big demo /\
  is_Some (nul_pos (buffer 16 demo_big demo)) /\
  exists h',
    sstring.assign_cstr 16 demo_big (sstring.c_str demo_big) demo
      = Some (demo_big, h') /\
    cells h' = cells demo.
Proof.
  assert (H1 : allocated 16 demo_big demo) by (vm_compute; lia).
  assert (H2 : is_Some (nul_pos (buffer 16 demo_big demo))) by (vm_compute; eauto).
  exact (conj H1 (conj H2 (assign_own_c_str 16 demo_big demo H1 H2))).
Defined.

(** ** The stream inserter, again *)

(** What [stream << rhs] returns and the machine it leaves. *)
Lemma shl_spec N stream this h old L :
  allocated N this h ->
  nul_pos (buffer N this h) = Some L ->
  sinks h !! stream = Some old ->
  sstring.shl stream this h =
    Some (stream,
          Machine (cells h)
                  (<[stream := old ++ content (buffer N this h)]> (sinks h))
                  (log h ++ scan_log this L ++ (Rd <$> seq this L))).
Proof.
  intros Ha Hbuf Hold.
  pose proof (content_take _ _ Hbuf) as Hcontent.
  apply nul_pos_buffer in Hbuf as [Hpos HL].
  unfold sstring.shl, ostream_insert_cstr, sstring.c_str, sstring.s, bind.
  rewrite (strlen_first_nul _ _ _ Hpos).
  unfold allocated in Ha. rewrite load_n_spec by (simpl; lia).
  unfold sink_append, ret. simpl. rewrite Hold.
  rewrite Hcontent. unfold buffer, bytes_at, sstring.s.
  rewrite take_take, <- app_assoc. by replace (Nat.min L (S N)) with L by lia.
Qed.

(** X12.  Insertions chain: [stream << a << b] appends the logical content
    of [a] and then that of [b] to the sink, returns the stream, and leaves
    the memory and every other sink as they were. *)
Theorem shl_chain Na Nb stream a b h old :
  allocated Na a h ->
  allocated Nb b h ->
  is_Some (nul_pos (buffer Na a h)) ->
  is_Some (nul_pos (buffer Nb b h)) ->
  sinks h !! stream = Some old ->
  exists h',
    (let* stream' := sstring.shl stream a in sstring.shl stream' b) h
      = Some (stream, h') /\
    sinks h' = <[stream := old ++ content (buffer Na a h)
                               ++ content (buffer Nb b h)]> (sinks h) /\
    cells h' = cells h.
Proof.
  intros Ha Hb [La Hpa] [Lb Hpb] Hold. unfold bind.
  rewrite (shl_spec Na stream a h old La Ha Hpa Hold).
  set (h1 := Machine _ _ _).
  assert (Hold1 : sinks h1 !! stream = Some (old ++ content (buffer Na a h))).
  { subst h1. simpl. apply list_lookup_insert_eq. by apply lookup_lt_Some in Hold. }
  rewrite (shl_spec Nb stream b h1 _ Lb Hb Hpb Hold1).
  eexists. split; [reflexivity|]. simpl.
  by rewrite list_insert_insert_eq, <- app_assoc.
Qed.

Lemma shl_chain_witness :
  allocated 2 trio_two trio /\
  allocated 4 trio_four trio /\
  is_Some (nul_pos (buffer 2 trio_two trio)) /\
  is_Some (nul_pos (buffer 4 trio_four trio)) /\
  sinks trio !! 0 = Some [] /\
  exists h',
    (let* stream' := sstring.shl 0 trio_two in sstring.shl stream' trio_four) trio
      = Some (0, h') /\
    sinks h' = <[0 := [] ++ content (buffer 2 trio_two trio)
                         ++ content (buffer 4 trio_four trio)]> (sinks trio) /\
    cells h' = cells trio.
Proof.
  assert (H1 : allocated 2 trio_two trio) by (vm_compute; lia).
  assert (H2 : allocated 4 trio_four trio) by (vm_compute; lia).
  assert (H3 : is_Some (nul_pos (buffer 2 trio_two trio))) by (vm_compute; eauto).
  assert (H4 : is_Some (nul_pos (buffer 4 trio_four trio))) by (vm_compute; eauto).
  assert (H5 : sinks trio !! 0 = Some []) by reflexivity.
  exact (conj H1 (conj H2 (conj H3 (conj H4 (conj H5
    (shl_chain 2 4 0 trio_two trio_four trio [] H1 H2 H3 H4 H5)))))).
Defined.

(** X13.  [stream << rhs] reads the array of [rhs] only, from its first
    byte to its first terminator, and never stores to the memory: the bytes
    of the array after the terminator do not reach the stream and are not
    even read. *)
Theorem shl_reads_array N stream this h old L :
  allocated N this h ->
  nul_pos (buffer N this h) = Some L ->
  sinks h !! stream = Some old ->
  exists h' ev,
    sstring.shl stream this h = Some (stream, h') /\
    log h' = log h ++ ev /\
    within (sstring.c_str this) (S L) (sstring.c_str this) 0 ev /\
    S L <= S N.
Proof.
  intros Ha Hbuf Hold.
  rewrite (shl_spec N stream this h old L Ha Hbuf Hold).
  eexists _, _. split; [reflexivity|]. split; [reflexivity|].
  unfold sstring.c_str, sstring.s. split.
  - apply Forall_app. split; [apply scan_log_within|].
    apply Forall_fmap, Forall_forall. intros x Hx.
    apply elem_of_seq in Hx. simpl. unfold in_range. lia.
  - apply nul_pos_buffer in Hbuf as [_ ?]. lia.
Qed.

Lemma shl_reads_array_witness :
  allocated 4 trio_four trio /\
  nul_pos (buffer 4 trio_four trio) = Some 3 /\
  sinks trio !! 0 = Some [] /\
  exists h' ev,
    sstring.shl 0 trio_four trio = Some (0, h') /\
    log h' = log trio ++ ev /\
    within (sstring.c_str trio_four) (S 3) (sstring.c_str trio_four) 0 ev /\
    S 3 <= S 4.
Proof.
  assert (H1 : allocated 4 trio_four trio) by (vm_compute; lia).
  assert (H2 : nul_pos (buffer 4 trio_four trio) = Some 3) by reflexivity.
  assert (H3 : sinks trio !! 0 = Some []) by reflexivity.
  exact (conj H1 (conj H2 (conj H3
    (shl_reads_array 4 0 trio_four trio [] 3 H1 H2 H3)))).
Defined.

(** X14.  Constructing a string from a text and inserting it into a stream
    writes the first [N] bytes of the text: the whole text when it fits,
    its truncation otherwise. *)
Theorem construct_then_output N stream this src h bs old :
  allocated N this h ->
  spells h src bs ->
  apart N this h src ->
  sinks h !! stream = Some old ->
  exists h',
    (construct N this src >> sstring.shl stream this) h = Some (stream, h') /\
    sinks h' = <[stream := old ++ take N bs]> (sinks h).
Proof.
  intros Ha Hsp Hap Hold.
  destruct (spells_readable _ _ _ Hsp) as [Hr Hcount].
  destruct (assign_spec N this src h Hr Ha) as (h1 & Hrun & Hlen & Hsk & _).
  destruct (assign_spells N this src h bs Ha Hsp) as (h1' & Hrun' & Hb & _ & Hpos).
  { eapply apart_forward_safe; [done|lia]. }
  rewrite Hrun in Hrun'. injection Hrun' as <-.
  set (L := Nat.min (length bs) N) in *.
  assert (Ha1 : allocated N this h1) by (unfold allocated in *; lia).
  assert (Hbuf : nul_pos (buffer N this h1) = Some L).
  { apply nul_pos_buffer. split; [done|subst L; lia]. }
  assert (Hold1 : sinks h1 !! stream = Some old) by (by rewrite Hsk).
  unfold bind. rewrite construct_assign, Hrun.
  rewrite (shl_spec N stream this h1 old L Ha1 Hbuf Hold1).
  eexists. split; [reflexivity|]. simpl. rewrite Hsk. do 2 f_equal.
  rewrite (content_take _ _ Hbuf). unfold buffer. rewrite bytes_at_take.
  replace (Nat.min L (S N)) with L by (subst L; lia).
  unfold sstring.s. rewrite Hb. subst L.
  rewrite Nat.min_comm, <- take_take. by rewrite (take_ge bs (length bs)).
Qed.

Lemma construct_then_output_witness :
  allocated 8 demo_small demo /\
  spells demo (OfArray 13 demo_msg) MSG /\
  apart 8 demo_small demo (OfArray 13 demo_msg) /\
  sinks demo !! 0 = Some [] /\
  exists h',
    (construct 8 demo_small (OfArray 13 demo_msg) >> sstring.shl 0 demo_small) demo
      = Some (0, h') /\
    sinks h' = <[0 := [] ++ take 8 MSG]> (sinks demo).
Proof.
  assert (H1 : allocated 8 demo_small demo) by (vm_compute; lia).
  assert (H2 : spells demo (OfArray 13 demo_msg) MSG) by (vm_compute; auto).
  assert (H3 : apart 8 demo_small demo (OfArray 13 demo_msg)) by (vm_compute; lia).
  assert (H4 : sinks demo !! 0 = Some []) by reflexivity.
  exact (conj H1 (conj H2 (conj H3 (conj H4
    (construct_then_output 8 0 demo_small (OfArray 13 demo_msg) demo MSG []
       H1 H2 H3 H4))))).
Defined.
